(** * Codebase-copilot: the retrieval-augmented-generation core

    A shallow embedding of the chunker ([app/ingestion/parser.py]), the
    vector index wrapper ([app/indexing/indexer.py]), the retriever
    ([app/rag/retriever.py]), the answer post-processing
    ([app/rag/generator.py]) and the indexing task ([app/api/repos.py],
    [app/storage/db.py]), with the properties of the design document stated
    and settled against the embedded code.

    Conventions of the embedding.
    - A Python [str] that the code inspects character by character is a
      [list ascii]; an [ascii] stands for the code point of the same number,
      so the texts covered are those over U+0000..U+00FF, with the character
      classes Python gives these code points.
    - Opaque names (repository ids, chunk ids, paths, messages) are [string].
    - Python exceptions are values of [exn]; a function that may raise
      returns a [result]. *)

From Stdlib Require Import ZArith NArith QArith Ascii String List Lia.
From Stdlib Require Import Permutation Sorted DecimalNat.
From stdpp Require Import base option list strings pretty sorting gmap.

Open Scope nat_scope.

(** ** Text *)

Abbreviation str := (list ascii).

Definition lit (s : string) : str := list_ascii_of_string s.

Definition code (c : ascii) : nat := nat_of_ascii c.

Definition in_range (lo hi : nat) (c : ascii) : bool :=
  (lo <=? code c) && (code c <=? hi).

(** [str.isspace] on U+0000..U+00FF: TAB..CR, FS..US, space, NEL, NBSP. *)
Definition isspace (c : ascii) : bool :=
  in_range 9 13 c || in_range 28 32 c || (code c =? 133) || (code c =? 160).

(** The line boundaries of [str.splitlines]: LF, VT, FF, CR, FS, GS, RS, NEL. *)
Definition is_linebreak (c : ascii) : bool :=
  in_range 10 13 c || in_range 28 30 c || (code c =? 133).

(** [\d] of the [re] module on these code points. *)
Definition isdigit (c : ascii) : bool := in_range 48 57 c.

(** [\w] of the [re] module: alphanumerics and the underscore. *)
Definition isword (c : ascii) : bool :=
  isdigit c || in_range 65 90 c || (code c =? 95) || in_range 97 122 c
  || (code c =? 170) || in_range 178 179 c || (code c =? 181)
  || in_range 185 186 c || in_range 188 190 c
  || in_range 192 214 c || in_range 216 246 c || in_range 248 255 c.

(** [str.lower] on one code point. *)
Definition lower_char (c : ascii) : ascii :=
  if in_range 65 90 c || in_range 192 214 c || in_range 216 222 c
  then ascii_of_nat (code c + 32) else c.

Definition lower (s : str) : str := map lower_char s.

(** [s.strip()]: leading and trailing whitespace removed. *)
Fixpoint lstrip (s : str) : str :=
  match s with
  | c :: s' => if isspace c then lstrip s' else s
  | [] => []
  end.

Definition strip (s : str) : str := rev (lstrip (rev (lstrip s))).

(** [sep.join(parts)]. *)
Fixpoint join (sep : str) (parts : list str) : str :=
  match parts with
  | [] => []
  | [p] => p
  | p :: ps => p ++ sep ++ join sep ps
  end.

(** [s.splitlines()].  [cur] is the line being read, reversed; [after_cr]
    records that the previous character was a CR, so that the LF of a CR LF
    pair does not end a second line. *)
Fixpoint splitlines_from (after_cr : bool) (cur : str) (s : str) : list str :=
  match s with
  | [] => match cur with [] => [] | _ => [rev cur] end
  | c :: s' =>
      if after_cr && (code c =? 10) then splitlines_from false cur s'
      else if is_linebreak c
           then rev cur :: splitlines_from (code c =? 13) [] s'
           else splitlines_from false (c :: cur) s'
  end.

Definition splitlines (s : str) : list str := splitlines_from false [] s.

(** [s.split()]: the maximal runs of non-whitespace characters. *)
Fixpoint split_from (cur : str) (s : str) : list str :=
  match s with
  | [] => match cur with [] => [] | _ => [rev cur] end
  | c :: s' =>
      if isspace c
      then match cur with
           | [] => split_from [] s'
           | _ => rev cur :: split_from [] s'
           end
      else split_from (c :: cur) s'
  end.

Definition split (s : str) : list str := split_from [] s.

(** [p in s] for strings: [p] occurs in [s] as a contiguous substring. *)
Fixpoint starts_with (p s : str) : bool :=
  match p, s with
  | [], _ => true
  | a :: p', b :: s' => Ascii.eqb a b && starts_with p' s'
  | _ :: _, [] => false
  end.

Fixpoint contains (p s : str) : bool :=
  starts_with p s ||
  match s with
  | [] => false
  | _ :: s' => contains p s'
  end.

(** ** Exceptions *)

(** The exceptions that the code raises or lets through, all of them
    instances of [Exception].  [ReadError] stands for the exception with
    which a reader rejects a file that is not whole: the index library's
    [RuntimeError], and [EOFError] or [UnpicklingError] of [pickle]. *)

Inductive exn : Type :=
| ValueError (msg : string)
| KeyError (key : string)
| IndexError (msg : string)
| AssertionError
| RuntimeError (msg : string)
| OSError (msg : string)
| ReadError (msg : string).

(** [str(e)] as the task's handler records it. *)
Definition exn_message (e : exn) : string :=
  match e with
  | ValueError m | IndexError m | RuntimeError m | OSError m
  | ReadError m => m
  | KeyError k => ("'" ++ k ++ "'")%string
  | AssertionError => ""%string
  end.

Inductive result (A : Type) : Type :=
| Ok (a : A)
| Raise (e : exn).
Arguments Ok {A} a.
Arguments Raise {A} e.

(** ** Chunks *)

(** A chunk dictionary.  [embedding] is the key added by the embedding stage
    and [rerank_score] the key [_rerank_score] that re-ranking adds and
    removes; [None] means that the key is absent.  Rows read from the
    [chunks] table carry the same fields, without [embedding]. *)
Record chunk : Type := Chunk {
  chunk_id : string;
  file_path : string;
  language : string;
  start_line : nat;
  end_line : nat;
  content : str;
  content_hash : string;
  embedding : option (list Z);
  rerank_score : option Q
}.

(** ** Chunker ([parser.py]) *)

Module Parser.

Definition chunk_size_lines : nat := 50.
Definition overlap_lines : nat := 5.

(** [lines[i:end]] joined, for [end = min(i + chunk_size_lines, len(lines))]. *)
Definition window_end (lines : list str) (i : nat) : nat :=
  Nat.min (i + chunk_size_lines) (length lines).

Definition window_text (lines : list str) (i : nat) : str :=
  join (lit "
") (take (window_end lines i - i) (drop i lines)).

Section Chunker.
(** The two library calls whose values the chunker only stores:
    [uuid4 k] is the id drawn for the [k]-th emitted chunk and
    [sha256_hex] the digest of the chunk text. *)
Variable uuid4 : nat -> string.
Variable sha256_hex : str -> string.

(** The [while i < len(lines)] loop.  [drawn] counts the ids drawn so far;
    [fuel] bounds the number of iterations. *)
Fixpoint chunk_loop (fuel : nat) (fp lang : string) (lines : list str)
    (i drawn : nat) : list chunk :=
  match fuel with
  | 0 => []
  | S fuel' =>
      if i <? length lines then
        let text := window_text lines i in
        if length (strip text) <? 10
        then chunk_loop fuel' fp lang lines
               (i + (chunk_size_lines - overlap_lines)) drawn
        else
          {| chunk_id := uuid4 drawn;
             file_path := fp;
             language := lang;
             start_line := i + 1;
             end_line := window_end lines i;
             content := text;
             content_hash := sha256_hex text;
             embedding := None;
             rerank_score := None |}
          :: chunk_loop fuel' fp lang lines
               (i + (chunk_size_lines - overlap_lines)) (S drawn)
      else []
  end.

Definition chunk_content (content : str) (fp lang : string) : list chunk :=
  let lines := splitlines content in
  match lines with
  | [] => []
  | _ => chunk_loop (length lines) fp lang lines 0 0
  end.
End Chunker.

End Parser.

(** ** Python list primitives *)

(** [l[idx]] with Python's negative indices. *)
Definition py_index {A : Type} (l : list A) (idx : Z) : result A :=
  let n := Z.of_nat (length l) in
  let pos := if (idx <? 0)%Z then (idx + n)%Z else idx in
  if (0 <=? pos)%Z && (pos <? n)%Z then
    match l !! Z.to_nat pos with
    | Some x => Ok x
    | None => Raise (IndexError "list index out of range")
    end
  else Raise (IndexError "list index out of range").

(** [l[:stop]] with Python's negative bounds. *)
Definition py_slice_to {A : Type} (l : list A) (stop : Z) : list A :=
  if (stop <? 0)%Z
  then take (Z.to_nat (Z.of_nat (length l) + stop)) l
  else take (Z.to_nat stop) l.

(** [sorted] is stable: [stable_sort prec l] is the stable sort of [l] for
    the strict order [prec], where [prec y x] says that [y] must come before
    [x].  An element moves behind those that strictly precede it and stays in
    front of the others, ties included. *)
Fixpoint stable_insert {A : Type} (prec : A -> A -> bool) (x : A)
    (s : list A) : list A :=
  match s with
  | [] => [x]
  | y :: s' => if prec y x then y :: stable_insert prec x s' else x :: s
  end.

Fixpoint stable_sort {A : Type} (prec : A -> A -> bool) (l : list A) : list A :=
  match l with
  | [] => []
  | x :: l' => stable_insert prec x (stable_sort prec l')
  end.

Definition Qltb (a b : Q) : bool := negb (Qle_bool b a).

(** The order of [sorted(..., key=key, reverse=True)]: [y] comes before [x]
    when its key is strictly greater. *)
Definition by_key_desc {A : Type} (key : A -> Q) (y x : A) : bool :=
  Qltb (key x) (key y).

(** ** Answer post-processing ([generator.py]) *)

Module Generator.

Record citation : Type := Citation {
  cit_file_path : string;
  cit_start_line : nat;
  cit_end_line : nat;
  cit_snippet : str
}.

Inductive confidence : Type := low | medium | high.

(** The longest prefix of digits and what follows it. *)
Fixpoint span_digits (s : str) : str * str :=
  match s with
  | c :: s' =>
      if isdigit c
      then let '(ds, rest) := span_digits s' in (c :: ds, rest)
      else ([], s)
  | [] => ([], [])
  end.

(** One attempt of the pattern [\[Source (\d+)\]] at the head of [s]: the
    text of group 1 and the length of the whole match. *)
Definition match_source_at (s : str) : option (str * nat) :=
  if starts_with (lit "[Source ") s then
    match span_digits (drop 8 s) with
    | ((_ :: _) as ds, c :: _) =>
        if Ascii.eqb c "]" then Some (ds, 8 + length ds + 1) else None
    | _ => None
    end
  else None.

(** [re.findall(citation_pattern, answer)]: the matches from left to right,
    none overlapping; [skip] characters are still covered by the previous
    match. *)
Fixpoint findall_source (skip : nat) (s : str) : list str :=
  match s with
  | [] => []
  | _ :: s' =>
      match skip with
      | S k => findall_source k s'
      | 0 =>
          match match_source_at s with
          | Some (ds, len) => ds :: findall_source (len - 1) s'
          | None => findall_source 0 s'
          end
      end
  end.

(** [int(m)] on a string of decimal digits.  The interpreter's bound on the
    number of digits that [int] converts is not modelled. *)
Definition int_of_digits (ds : str) : N :=
  fold_left (fun acc c => (10 * acc + N.of_nat (code c - 48))%N) ds 0%N.

Definition make_citation (c : chunk) : citation :=
  let snippet := take 200 (content c) in
  {| cit_file_path := file_path c;
     cit_start_line := start_line c;
     cit_end_line := end_line c;
     cit_snippet := if 200 <? length (content c)
                    then snippet ++ lit "..." else snippet |}.

(** The loop over [sorted(unique_sources)]. *)
Fixpoint cite_sources (chunks : list chunk) (nums : list N) : list citation :=
  match nums with
  | [] => []
  | source_num :: rest =>
      if ((1 <=? source_num) && (source_num <=? N.of_nat (length chunks)))%N
      then match chunks !! N.to_nat (source_num - 1) with
           | Some c => make_citation c :: cite_sources chunks rest
           | None => cite_sources chunks rest
           end
      else cite_sources chunks rest
  end.

Definition unique_sources (answer : str) : gset N :=
  list_to_set (int_of_digits <$> findall_source 0 answer).

Definition sorted_sources (answer : str) : list N :=
  merge_sort N.le (elements (unique_sources answer)).

Definition extract_citations (answer : str) (chunks : list chunk)
    : list citation :=
  cite_sources chunks (sorted_sources answer).

Definition uncertainty_phrases : list str :=
  lit <$> [ "i don't have"; "not sure"; "unclear"; "might"; "possibly";
            "i cannot find"; "no information"; "error generating answer" ]%string.

Definition calculate_confidence (answer : str) (citations : list citation)
    (chunks : list chunk) : confidence :=
  match citations with
  | [] => low
  | _ :: _ =>
      if length answer <? 50 then low
      else
        let citation_count := length citations in
        let words := length (split answer) in
        if (100 <? words) && (citation_count <? 2) then medium
        else
          let answer_lower := lower answer in
          if existsb (fun p => contains p answer_lower) uncertainty_phrases
          then low
          else if 2 <=? citation_count then high
          else if citation_count =? 1 then medium
          else low
  end.

End Generator.

(** ** The stored state *)

(** A flat L2 index of the vector-search library: its dimension and the
    stored vectors, position by position.  Coordinates are integers here.
    The library keeps them, and computes with them, as 32-bit floats, whose
    rounding and overflow are not modelled: see [float32_exact] for the
    vectors on which the two agree. *)
Record faiss_index : Type := IndexFlatL2 {
  dimension : nat;
  xb : list (list Z)
}.

Definition ntotal (ix : faiss_index) : nat := length (xb ix).



(** What a file of [faiss_index_dir] holds: the value that the last
    successful write put there, or what a write that failed midway left of
    it, a truncated or partial file, which its reader rejects. *)
Inductive stored (A : Type) : Type :=
| Intact (a : A)
| Damaged.
Arguments Intact {A} a.
Arguments Damaged {A}.

(** How the write of a file fails: [Refused x] raises [x] before the file is
    opened for writing and leaves it as it was; [Torn x] raises [x] once the
    file has been opened, which truncates it, and leaves it damaged. *)
Inductive write_failure : Type :=
| Refused (x : exn)
| Torn (x : exn).

Definition failure_exn (f : write_failure) : exn :=
  match f with Refused x | Torn x => x end.

Inductive RepoStatus : Type := QUEUED | INDEXING | READY | ERROR.

(** A row of the [repositories] table. *)
Record repo_row : Type := RepoRow {
  repo_url : string;
  status : RepoStatus;
  error_message : option string;
  indexed_at : option string;
  file_count : nat;
  chunk_count : nat
}.

(** The [.faiss] and [_mapping.pkl] files of [faiss_index_dir], keyed by
    repository id, and the two tables of the database.  A row of the
    [chunks] table is the repository id with the chunk's columns. *)
Record world : Type := World {
  index_files : gmap string (stored faiss_index);
  mapping_files : gmap string (stored (list string));
  repositories : gmap string repo_row;
  chunks_table : list (string * chunk)
}.

(** Computations on the stored state that may raise. *)
Definition M (A : Type) : Type := world -> result A * world.

Definition ret {A : Type} (a : A) : M A := fun w => (Ok a, w).

Definition raise {A : Type} (e : exn) : M A := fun w => (Raise e, w).

Definition bind {A B : Type} (m : M A) (k : A -> M B) : M B :=
  fun w =>
    match m w with
    | (Ok a, w') => k a w'
    | (Raise e, w') => (Raise e, w')
    end.

(** [try: body  except Exception as e: handler(e)]. *)
Definition try_except {A : Type} (body : M A) (handler : exn -> M A) : M A :=
  fun w =>
    match body w with
    | (Ok a, w') => (Ok a, w')
    | (Raise e, w') => handler e w'
    end.

Declare Scope task_scope.
Delimit Scope task_scope with task.
Notation "x <- m ;; k" := (bind m (fun x => k))
  (at level 100, m at next level, right associativity) : task_scope.
Notation "m ;; k" := (bind m (fun _ => k))
  (at level 100, right associativity) : task_scope.

(** ** Vector index ([indexer.py]) *)

Module Indexer.

(** Squared Euclidean distance, the metric of a flat L2 index. *)
Definition l2_sqr (x y : list Z) : Z :=
  foldr Z.add 0%Z (zip_with (fun a b => ((a - b) * (a - b))%Z) x y).

(** The stored positions with their distances to [q], nearest first; of two
    equidistant vectors the one stored first comes first. *)
Definition nearest (ix : faiss_index) (q : list Z) : list (nat * Z) :=
  stable_sort (fun a b => (snd a <? snd b)%Z)
    (imap (fun i v => (i, l2_sqr q v)) (xb ix)).

(** [index.search(query_vector, k)] for a single query, as the library
    documents it: the wrapper asserts the query's dimension and [k > 0]; the
    labels are the positions of the [k] nearest stored vectors in ascending
    distance, and when fewer than [k] vectors are stored the missing labels
    are [-1]. *)
Definition index_search (ix : faiss_index) (q : list Z) (k : Z)
    : result (list Z) :=
  if negb (length q =? dimension ix) then Raise AssertionError
  else if negb (0 <? k)%Z then Raise AssertionError
  else
    let hits := take (Z.to_nat k) (nearest ix q) in
    Ok (((fun h => Z.of_nat (fst h)) <$> hits)
        ++ replicate (Z.to_nat k - length hits) (-1)%Z).

(** [[chunk_ids[idx] for idx in indices[0] if idx < len(chunk_ids)]]. *)
Fixpoint collect_chunk_ids (chunk_ids : list string) (labels : list Z)
    : result (list string) :=
  match labels with
  | [] => Ok []
  | idx :: rest =>
      if (idx <? Z.of_nat (length chunk_ids))%Z then
        match py_index chunk_ids idx with
        | Ok cid =>
            match collect_chunk_ids chunk_ids rest with
            | Ok cids => Ok (cid :: cids)
            | Raise e => Raise e
            end
        | Raise e => Raise e
        end
      else collect_chunk_ids chunk_ids rest
  end.

(** [search_index]: both files must exist; the index file is read first and
    the mapping file second, and a file left damaged makes its reader
    raise. *)
Definition search_index (w : world) (repo_id : string)
    (query_embedding : list Z) (top_k : Z) : result (list string) :=
  match index_files w !! repo_id, mapping_files w !! repo_id with
  | Some index_file, Some mapping_file =>
      match index_file with
      | Damaged => Raise (ReadError "read error")
      | Intact index =>
          match mapping_file with
          | Damaged => Raise (ReadError "pickle data was truncated")
          | Intact chunk_ids =>
              match index_search index query_embedding top_k with
              | Ok labels => collect_chunk_ids chunk_ids labels
              | Raise e => Raise e
              end
          end
      end
  | _, _ => Raise (ValueError ("Index not found for repository " ++ repo_id))
  end.

(** [np.array(rows, dtype=np.float32).shape[1]]: the common length of the
    rows; rows of different lengths do not make a matrix. *)
Definition matrix_dimension (rows : list (list Z)) : result nat :=
  match rows with
  | [] => Raise (IndexError "tuple index out of range")
  | r :: rest =>
      if forallb (fun r' => length r' =? length r) rest
      then Ok (length r)
      else Raise (ValueError "inhomogeneous shape")
  end.

(** [[chunk["embedding"] for chunk in chunks]]. *)
Fixpoint embeddings_of (chunks : list chunk) : result (list (list Z)) :=
  match chunks with
  | [] => Ok []
  | c :: rest =>
      match embedding c with
      | None => Raise (KeyError "embedding")
      | Some v =>
          match embeddings_of rest with
          | Ok vs => Ok (v :: vs)
          | Raise e => Raise e
          end
      end
  end.

(** [build_faiss_index].  [write_index_error] and [write_mapping_error] are
    the failures, if any, of the two file writes.  The index file is written
    first and the mapping file second, each in place: a write that fails
    after it has opened its file leaves that file damaged. *)
Definition build_faiss_index
    (write_index_error write_mapping_error : option write_failure)
    (repo_id : string) (chunks : list chunk) : M unit :=
  fun w =>
    match chunks with
    | [] => (Raise (ValueError "No chunks to index"), w)
    | _ :: _ =>
        match embeddings_of chunks with
        | Raise e => (Raise e, w)
        | Ok embeddings =>
            match matrix_dimension embeddings with
            | Raise e => (Raise e, w)
            | Ok dim =>
                let index := {| dimension := dim; xb := embeddings |} in
                let put_index (file : stored faiss_index) : world :=
                  {| index_files := <[repo_id := file]> (index_files w);
                     mapping_files := mapping_files w;
                     repositories := repositories w;
                     chunks_table := chunks_table w |} in
                match write_index_error with
                | Some (Refused e) => (Raise e, w)
                | Some (Torn e) => (Raise e, put_index Damaged)
                | None =>
                    let w1 := put_index (Intact index) in
                    let chunk_ids := chunk_id <$> chunks in
                    let put_mapping (file : stored (list string)) : world :=
                      {| index_files := index_files w1;
                         mapping_files := <[repo_id := file]> (mapping_files w1);
                         repositories := repositories w1;
                         chunks_table := chunks_table w1 |} in
                    match write_mapping_error with
                    | Some (Refused e) => (Raise e, w1)
                    | Some (Torn e) => (Raise e, put_mapping Damaged)
                    | None => (Ok tt, put_mapping (Intact chunk_ids))
                    end
                end
            end
        end
    end.

End Indexer.

(** ** Database ([db.py]) *)

Module Db.

(** [update_repo_status]: an [UPDATE] of the repository's row, which changes
    nothing when no such row exists, and its commit.  [now] is the time of
    the call.  [write_error] is the failure, if any, of the connection, of
    the statement or of the commit; the connection is then closed without a
    commit and the row is as before. *)
Definition update_repo_status (write_error : option exn) (now : string)
    (repo_id : string) (st : RepoStatus) (msg : option string) : M unit :=
  fun w =>
    match write_error with
    | Some e => (Raise e, w)
    | None =>
        let upd (r : repo_row) : repo_row :=
          {| repo_url := repo_url r;
             status := st;
             error_message := msg;
             indexed_at := match st with
                           | READY => Some now
                           | _ => indexed_at r
                           end;
             file_count := file_count r;
             chunk_count := chunk_count r |} in
        (Ok tt,
         {| index_files := index_files w;
            mapping_files := mapping_files w;
            repositories := alter upd repo_id (repositories w);
            chunks_table := chunks_table w |})
    end.

(** The chunk as the [INSERT] stores it: the columns of the table, which
    have neither the embedding nor the re-ranking score. *)
Definition chunk_row (c : chunk) : chunk :=
  {| chunk_id := chunk_id c; file_path := file_path c; language := language c;
     start_line := start_line c; end_line := end_line c; content := content c;
     content_hash := content_hash c; embedding := None; rerank_score := None |}.

(** [save_chunks]: one transaction that deletes the repository's rows,
    inserts the new ones and updates the counts.  [save_error] is the
    failure, if any, of a statement or of the commit; the connection is then
    closed without a commit and nothing of the transaction remains. *)
Definition save_chunks (save_error : option exn) (repo_id : string)
    (chunks : list chunk) : M unit :=
  fun w =>
    match save_error with
    | Some e => (Raise e, w)
    | None =>
        let kept := filter (fun row => row.1 ≠ repo_id) (chunks_table w) in
        let table := kept ++ ((fun c => (repo_id, chunk_row c)) <$> chunks) in
        let files := remove_dups (file_path <$> chunks) in
        let upd (r : repo_row) : repo_row :=
          {| repo_url := repo_url r; status := status r;
             error_message := error_message r; indexed_at := indexed_at r;
             file_count := length files;
             chunk_count := length chunks |} in
        (Ok tt,
         {| index_files := index_files w;
            mapping_files := mapping_files w;
            repositories := alter upd repo_id (repositories w);
            chunks_table := table |})
    end.

(** [get_chunk_by_id]: the row with this primary key, if any. *)
Definition get_chunk_by_id (w : world) (cid : string) : option chunk :=
  snd <$> (snd <$> list_find (fun row => chunk_id row.2 = cid) (chunks_table w)).

End Db.

(** ** Retrieval ([retriever.py]) *)

Module Retriever.

(** [re.findall(r'\w+', s)]: the maximal runs of word characters. *)
Fixpoint words_from (cur : str) (s : str) : list str :=
  match s with
  | [] => match cur with [] => [] | _ => [rev cur] end
  | c :: s' =>
      if isword c then words_from (c :: cur) s'
      else match cur with
           | [] => words_from [] s'
           | _ => rev cur :: words_from [] s'
           end
  end.

Definition findall_words (s : str) : list str := words_from [] s.

Definition word_set (s : str) : gset str := list_to_set (findall_words (lower s)).

(** The score is the exact quotient.  Python holds its rounding to a
    double; the scores of one query share their denominator, so the doubles
    are ordered as the quotients are. *)
Definition calculate_keyword_score (query chunk_content : str) : Q :=
  let query_words := word_set query in
  let content_words := word_set chunk_content in
  if decide (query_words = ∅) then 0%Q
  else
    let overlap := size (query_words ∩ content_words) in
    (Z.of_nat overlap # Pos.of_nat (size query_words))%Q.

Definition set_rerank_score (s : option Q) (c : chunk) : chunk :=
  {| chunk_id := chunk_id c; file_path := file_path c; language := language c;
     start_line := start_line c; end_line := end_line c; content := content c;
     content_hash := content_hash c; embedding := embedding c;
     rerank_score := s |}.

(** The sort key [x.get("_rerank_score", 0)]. *)
Definition rerank_key (c : chunk) : Q := default 0%Q (rerank_score c).

(** [sorted(chunks, key=rerank_key, reverse=True)]. *)
Definition sorted_by_score (chunks : list chunk) : list chunk :=
  stable_sort (by_key_desc rerank_key) chunks.

Definition rerank_chunks (query : str) (chunks : list chunk) : list chunk :=
  match chunks with
  | [] => chunks
  | _ :: _ =>
      let scored :=
        (fun c => set_rerank_score
                    (Some (calculate_keyword_score query (content c))) c)
        <$> chunks in
      let reranked := sorted_by_score scored in
      set_rerank_score None <$> reranked
  end.

(** [retrieve_relevant_chunks].  [create_query_embedding] is the embedding
    backend's answer for a query, or the exception it raises. *)
Definition retrieve_relevant_chunks
    (create_query_embedding : str -> result (list Z)) (w : world)
    (repo_id : string) (query : str) (top_k : Z) (use_reranking : bool)
    : result (list chunk) :=
  match create_query_embedding query with
  | Raise e => Raise e
  | Ok query_embedding =>
      let retrieve_k := if use_reranking then (top_k * 2)%Z else top_k in
      match Indexer.search_index w repo_id query_embedding retrieve_k with
      | Raise e => Raise e
      | Ok chunk_ids =>
          let chunks := omap (Db.get_chunk_by_id w) chunk_ids in
          if use_reranking && (top_k <? Z.of_nat (length chunks))%Z
          then Ok (py_slice_to (rerank_chunks query chunks) top_k)
          else Ok chunks
      end
  end.

End Retriever.

(** ** The indexing task ([repos.py], with [parse_repository] and
    [create_embeddings]) *)

Module Repos.

(** A file of the clone that passed [should_process_file] and was read. *)
Record source_file : Type := SourceFile {
  rel_path : string;
  suffix : string;
  text : str
}.

Definition LANGUAGE_MAP : list (string * string) :=
  [ (".py", "python"); (".js", "javascript"); (".ts", "typescript");
    (".jsx", "javascript"); (".tsx", "typescript"); (".java", "java");
    (".go", "go"); (".rb", "ruby"); (".rs", "rust"); (".c", "c");
    (".cpp", "cpp"); (".h", "c"); (".hpp", "cpp"); (".cs", "csharp");
    (".php", "php"); (".swift", "swift"); (".kt", "kotlin");
    (".scala", "scala"); (".sh", "bash"); (".bash", "bash");
    (".yaml", "yaml"); (".yml", "yaml"); (".json", "json"); (".xml", "xml");
    (".md", "markdown"); (".rst", "restructuredtext") ]%string.

Definition detect_language (sfx : string) : string :=
  match list_find (fun kv => kv.1 = sfx) LANGUAGE_MAP with
  | Some (_, (_, lang)) => lang
  | None => "text"%string
  end.

(** What the task obtains from outside the process: the clock, the two
    library calls of the chunker, the outcome of the clone and the files it
    left, the embedding backend, and the failures of the file and database
    writes.  [status_write_error st] is the failure, if any, of the write of
    the status [st]; a run writes each status at most once. *)
Record env : Type := Env {
  now : string;
  uuid4 : nat -> string;
  sha256_hex : str -> string;
  clone_repository : string -> string -> string -> option string -> result string;
  repo_files : list source_file;
  embed_all : list str -> result (list (list Z));
  write_index_error : option write_failure;
  write_mapping_error : option write_failure;
  save_chunks_error : option exn;
  status_write_error : RepoStatus -> option exn
}.

(** The loop of [parse_repository] over the files; [drawn] counts the chunk
    ids drawn so far. *)
Fixpoint parse_files (e : env) (files : list source_file) (drawn : nat)
    : list chunk :=
  match files with
  | [] => []
  | f :: rest =>
      match strip (text f) with
      | [] => parse_files e rest drawn
      | _ :: _ =>
          let chunks :=
            Parser.chunk_content (fun k => uuid4 e (drawn + k)) (sha256_hex e)
              (text f) (rel_path f) (detect_language (suffix f)) in
          chunks ++ parse_files e rest (drawn + length chunks)
      end
  end.

Definition parse_repository (e : env) : M (list chunk) :=
  ret (parse_files e (repo_files e) 0).

(** [for chunk, embedding in zip(chunks, all_embeddings)]. *)
Fixpoint attach_embeddings (chunks : list chunk) (embs : list (list Z))
    : list chunk :=
  match chunks, embs with
  | c :: cs, v :: vs =>
      {| chunk_id := chunk_id c; file_path := file_path c;
         language := language c; start_line := start_line c;
         end_line := end_line c; content := content c;
         content_hash := content_hash c; embedding := Some v;
         rerank_score := rerank_score c |}
      :: attach_embeddings cs vs
  | _, _ => chunks
  end.

(** [create_embeddings]: [embed_all] gives the embeddings collected over the
    batches, a failed batch having been filled with zero vectors, or the
    exception of the backend's initialisation. *)
Definition create_embeddings (e : env) (chunks : list chunk) : M (list chunk) :=
  match chunks with
  | [] => ret []
  | _ :: _ =>
      match embed_all e (content <$> chunks) with
      | Raise x => raise x
      | Ok all_embeddings => ret (attach_embeddings chunks all_embeddings)
      end
  end.

(** The body of the task's [try] block. *)
Definition indexing_stages (e : env) (repo_id url branch : string)
    (github_token : option string) : M unit :=
  (Db.update_repo_status (status_write_error e INDEXING) (now e) repo_id
     INDEXING None ;;
   repo_path <- (fun w => (clone_repository e repo_id url branch github_token, w)) ;;
   chunks <- parse_repository e ;;
   match chunks with
   | [] => raise (ValueError "No code chunks extracted from repository")
   | _ :: _ =>
       chunks_with_embeddings <- create_embeddings e chunks ;;
       Indexer.build_faiss_index (write_index_error e) (write_mapping_error e)
         repo_id chunks_with_embeddings ;;
       Db.save_chunks (save_chunks_error e) repo_id chunks_with_embeddings ;;
       Db.update_repo_status (status_write_error e READY) (now e) repo_id
         READY None
   end)%task.

Definition index_repository_task (e : env) (repo_id url branch : string)
    (github_token : option string) : M unit :=
  try_except
    (indexing_stages e repo_id url branch github_token)
    (fun x =>
       Db.update_repo_status (status_write_error e ERROR) (now e) repo_id
         ERROR (Some (exn_message x))).

End Repos.

(** ** Notions used in the statements *)

(** The windows of the chunker: the loop visits the starts [0], [45], [90],
    ... below the line count; a window is a tail window when it reaches the
    last line, and it is skipped when its trimmed text is too short. *)
Definition visited (lines : list str) (i : nat) : Prop :=
  i < length lines /\ exists k, i = k * (Parser.chunk_size_lines - Parser.overlap_lines).

Definition tail_window (lines : list str) (i : nat) : Prop :=
  visited lines i /\ Parser.window_end lines i = length lines.

Definition skipped (lines : list str) (i : nat) : Prop :=
  length (strip (Parser.window_text lines i)) < 10.

(** [occurs p s]: [p] is a contiguous part of [s]. *)
Definition occurs (p s : str) : Prop := exists pre post, s = pre ++ p ++ post.

(** The text that one match of the citation pattern covers. *)
Definition marker (ds : str) : str := lit "[Source " ++ ds ++ lit "]".

(** The answer refers to source [n]: it contains [[Source ds]] for a
    non-empty string of digits [ds] that reads as [n]. *)
Definition cites_source (answer : str) (n : N) : Prop :=
  exists ds, ds <> [] /\ forallb isdigit ds = true /\
    Generator.int_of_digits ds = n /\ occurs (marker ds) answer.

(** The citation built from a chunk: its path and line range, and the first
    200 characters of its content, followed by the ellipsis when the content
    is longer. *)
Definition cites_chunk (c : chunk) (cit : Generator.citation) : Prop :=
  Generator.cit_file_path cit = file_path c /\
  Generator.cit_start_line cit = start_line c /\
  Generator.cit_end_line cit = end_line c /\
  Generator.cit_snippet cit =
    take 200 (content c)
    ++ (if decide (length (content c) <= 200) then [] else lit "...").

(** A source number that refers to one of the retrieved chunks. *)
Definition in_bounds (chunks : list chunk) (n : N) : Prop :=
  (1 <= n <= N.of_nat (length chunks))%N.

(** The answer contains one of the uncertainty phrases, case ignored. *)
Definition uncertain (answer : str) : Prop :=
  exists p, p ∈ Generator.uncertainty_phrases /\ occurs p (lower answer).

(** Two chunk dictionaries that agree on every key but [_rerank_score]. *)
Definition same_fields (c c' : chunk) : Prop :=
  chunk_id c = chunk_id c' /\ file_path c = file_path c' /\
  language c = language c' /\ start_line c = start_line c' /\
  end_line c = end_line c' /\ content c = content c' /\
  content_hash c = content_hash c' /\ embedding c = embedding c'.

(** The re-ranking score of a chunk for a query. *)
Definition keyword_score (query : str) (c : chunk) : Q :=
  Retriever.calculate_keyword_score query (content c).

(** ** Sample data *)

Definition sample_citation : Generator.citation :=
  {| Generator.cit_file_path := "src/auth.py";
     Generator.cit_start_line := 1;
     Generator.cit_end_line := 8;
     Generator.cit_snippet := lit "def login(user):" |}.

(** An answer of 101 words that hedges with the word "might". *)
Definition hedged_long_answer : str := concat (replicate 101 (lit "might ")).

Definition hedged_short_answer : str :=
  lit "The retry policy might be configured in [Source 1], as far as shown.".

Definition sample_chunk (cid path : string) (first last : nat) (body : string)
    : chunk :=
  {| chunk_id := cid; file_path := path; language := "python";
     start_line := first; end_line := last; content := lit body;
     content_hash := ""; embedding := None; rerank_score := None |}.

Definition chunk_a : chunk := sample_chunk "c1" "src/auth.py" 1 8 "def login(user): check(user)".
Definition chunk_b : chunk := sample_chunk "c2" "src/utils.py" 10 20 "def retry(policy): return policy".
Definition chunk_c : chunk := sample_chunk "c3" "src/db.py" 3 9 "def connect(url): open(url)".

Definition sample_row : repo_row :=
  {| repo_url := "https://example.org/repo.git"; status := READY;
     error_message := None; indexed_at := Some "2024-01-01T00:00:00";
     file_count := 3; chunk_count := 3 |}.

(** A repository ["r"] that is ready: three chunks, their vectors at
    positions 0, 1 and 2 of the index, and the aligned mapping. *)
Definition ready_world : world :=
  {| index_files :=
       {[ "r"%string := Intact {| dimension := 1; xb := [[0%Z]; [1%Z]; [5%Z]] |} ]};
     mapping_files := {[ "r"%string := Intact ["c1"; "c2"; "c3"]%string ]};
     repositories := {[ "r"%string := sample_row ]};
     chunks_table := [("r", chunk_a); ("r", chunk_b); ("r", chunk_c)]%string |}.

(** An embedding backend that sends every query to the origin. *)
Definition origin_embedding (query : str) : result (list Z) := Ok [0%Z].


(** A clone with one file, and a run in which every stage succeeds. *)
Definition sample_env : Repos.env :=
  {| Repos.now := "2024-02-02T00:00:00";
     Repos.uuid4 := fun _ => "n0"%string;
     Repos.sha256_hex := fun _ => "digest"%string;
     Repos.clone_repository := fun _ _ _ _ => Ok "/data/repos/r"%string;
     Repos.repo_files :=
       [ {| Repos.rel_path := "src/new.py"; Repos.suffix := ".py";
            Repos.text := lit "def renew(token): return refresh(token)" |} ];
     Repos.embed_all := fun texts => Ok ((fun _ => [7%Z]) <$> texts);
     Repos.write_index_error := None;
     Repos.write_mapping_error := None;
     Repos.save_chunks_error := None;
     Repos.status_write_error := fun _ => None |}.

(** The same run, except that the database refuses the chunks: an id drawn
    for a chunk is the primary key of a row of another repository. *)
Definition failing_env : Repos.env :=
  {| Repos.now := Repos.now sample_env;
     Repos.uuid4 := Repos.uuid4 sample_env;
     Repos.sha256_hex := Repos.sha256_hex sample_env;
     Repos.clone_repository := Repos.clone_repository sample_env;
     Repos.repo_files := Repos.repo_files sample_env;
     Repos.embed_all := Repos.embed_all sample_env;
     Repos.write_index_error := None;
     Repos.write_mapping_error := None;
     Repos.save_chunks_error :=
       Some (RuntimeError "UNIQUE constraint failed: chunks.chunk_id");
     Repos.status_write_error := fun _ => None |}.

(** A run whose clone fails while the database is locked: no status write
    succeeds after the first. *)
Definition locked_env : Repos.env :=
  {| Repos.now := Repos.now sample_env;
     Repos.uuid4 := Repos.uuid4 sample_env;
     Repos.sha256_hex := Repos.sha256_hex sample_env;
     Repos.clone_repository :=
       fun _ _ _ _ => Raise (ValueError "Failed to clone repository: timeout");
     Repos.repo_files := [];
     Repos.embed_all := Repos.embed_all sample_env;
     Repos.write_index_error := None;
     Repos.write_mapping_error := None;
     Repos.save_chunks_error := None;
     Repos.status_write_error :=
       fun st => match st with
                 | ERROR => Some (RuntimeError "database is locked")
                 | _ => None
                 end |}.


(** ** Further notions and sample data *)

Definition LF : ascii := "010"%char.

(** An environment whose draws of chunk ids are pairwise distinct. *)
Definition numbered_env : Repos.env :=
  {| Repos.now := Repos.now sample_env;
     Repos.uuid4 := fun k => pretty k;
     Repos.sha256_hex := Repos.sha256_hex sample_env;
     Repos.clone_repository := Repos.clone_repository sample_env;
     Repos.repo_files :=
       Repos.repo_files sample_env
       ++ [ {| Repos.rel_path := "README.md"; Repos.suffix := ".md";
               Repos.text := lit "Renews tokens before they expire." |} ];
     Repos.embed_all := Repos.embed_all sample_env;
     Repos.write_index_error := None;
     Repos.write_mapping_error := None;
     Repos.save_chunks_error := None;
     Repos.status_write_error := fun _ => None |}.

(** The only line boundaries of the text are line feeds. *)
Definition lf_only (text : str) : Prop :=
  Forall (fun c => is_linebreak c = true -> c = LF) text.

Definition blank (text : str) : Prop := Forall (fun c => isspace c = true) text.

(** ** More of the answer generation ([generator.py]) *)

Module Answer.

Fixpoint digits_of_uint (u : Decimal.uint) : str :=
  match u with
  | Decimal.Nil => []
  | Decimal.D0 u => "0"%char :: digits_of_uint u
  | Decimal.D1 u => "1"%char :: digits_of_uint u
  | Decimal.D2 u => "2"%char :: digits_of_uint u
  | Decimal.D3 u => "3"%char :: digits_of_uint u
  | Decimal.D4 u => "4"%char :: digits_of_uint u
  | Decimal.D5 u => "5"%char :: digits_of_uint u
  | Decimal.D6 u => "6"%char :: digits_of_uint u
  | Decimal.D7 u => "7"%char :: digits_of_uint u
  | Decimal.D8 u => "8"%char :: digits_of_uint u
  | Decimal.D9 u => "9"%char :: digits_of_uint u
  end.

(** [str(n)], as an f-string renders a non-negative integer. *)
Definition str_of_nat (n : nat) : str := digits_of_uint (Nat.to_uint n).

(** The excerpt that the fallback answer shows for the chunk numbered [i]. *)
Definition fallback_block (i : nat) (c : chunk) : str :=
  lit "### `" ++ lit (file_path c) ++ lit "` (lines "
  ++ str_of_nat (start_line c) ++ lit "-" ++ str_of_nat (end_line c)
  ++ lit ") [Source " ++ str_of_nat i ++ lit "]" ++ [LF]
  ++ lit "```" ++ lit (language c) ++ [LF]
  ++ take 500 (content c) ++ [LF] ++ lit "```" ++ [LF; LF].

(** [build_local_fallback_answer].  The notice opens with a warning sign of
    two code points beyond U+00FF, which a [str] cannot hold; they are the
    parameter [warning_sign]. *)
Definition build_local_fallback_answer (warning_sign : str)
    (chunks : list chunk) (max_chunks : Z) : str :=
  match chunks with
  | [] =>
      lit "I couldn't find any relevant code in the repository for your question."
      ++ [LF; LF]
      ++ lit "*Tip: try asking with a filename, function name, or keyword.*"
  | _ :: _ =>
      warning_sign
      ++ lit " **LLM generation is disabled or unavailable** (no valid OpenAI key / OpenAI turned off)."
      ++ [LF]
      ++ lit "Showing the most relevant retrieved excerpts instead:" ++ [LF; LF]
      ++ concat (imap (fun i c => fallback_block (S i) c)
                   (py_slice_to chunks max_chunks))
      ++ lit "*Note: To get richer explanations, provide a valid OpenAI key and set model=openai.*"
  end.

End Answer.

(** Answers with two references to source 2 and one to source 1, and with
    one reference to each. *)
Definition repeating_answer : str :=
  lit "See [Source 2] and [Source 1]; again [Source 2].".

Definition plain_answer : str := lit "[Source 1][Source 2]".

(** Chunks of the sample repository with their vectors, as the embedding
    stage hands them to the index build. *)
Definition with_embedding (v : list Z) (c : chunk) : chunk :=
  {| chunk_id := chunk_id c; file_path := file_path c; language := language c;
     start_line := start_line c; end_line := end_line c; content := content c;
     content_hash := content_hash c; embedding := Some v;
     rerank_score := rerank_score c |}.

Definition embedded_chunks : list chunk :=
  [ with_embedding [0%Z; 0%Z] chunk_a;
    with_embedding [3%Z; 4%Z] chunk_b;
    with_embedding [6%Z; 1%Z] chunk_c ].

(** A world without any repository, index or chunk. *)
Definition empty_world : world :=
  {| index_files := ∅; mapping_files := ∅; repositories := ∅; chunks_table := [] |}.

(** The rows of the [chunks] table that belong to a repository, and the
    others. *)
Definition rows_of (repo_id : string) (table : list (string * chunk))
    : list chunk :=
  snd <$> filter (fun row => row.1 = repo_id) table.

Definition rows_of_others (repo_id : string) (table : list (string * chunk))
    : list (string * chunk) :=
  filter (fun row => row.1 <> repo_id) table.

(** ** The embedding stage ([embedder.py]) *)

Module Embedder.

Definition batch_size : nat := 32.

(** [[[0.0] * dim for _ in batch_texts]], for
    [dim = len(all_embeddings[0]) if all_embeddings else 1536]. *)
Definition zero_embeddings (all_embeddings : list (list Z))
    (batch_texts : list str) : list (list Z) :=
  let dim := match all_embeddings with
             | first :: _ => length first
             | [] => 1536
             end in
  (fun _ => replicate dim 0%Z) <$> batch_texts.

(** The loop [for i in range(0, len(texts), batch_size)].  [embed_batch n]
    is the call of the model on the batch number [n], which returns the
    batch's embeddings or raises; [texts] are the texts from position [i]
    on, and [fuel] bounds the number of iterations. *)
Fixpoint embed_loop (embed_batch : nat -> list str -> result (list (list Z)))
    (fuel batch : nat) (texts : list str) (all_embeddings : list (list Z))
    : list (list Z) :=
  match fuel, texts with
  | S fuel', _ :: _ =>
      let batch_texts := take batch_size texts in
      embed_loop embed_batch fuel' (S batch) (drop batch_size texts)
        (all_embeddings ++
         match embed_batch batch batch_texts with
         | Ok batch_embeddings => batch_embeddings
         | Raise _ => zero_embeddings all_embeddings batch_texts
         end)
  | _, _ => all_embeddings
  end.

(** What [create_embeddings] collects for the texts of the chunks: [model]
    is the outcome of [get_embedding_model], whose exception propagates. *)
Definition embed_all (model : result (nat -> list str -> result (list (list Z))))
    (texts : list str) : result (list (list Z)) :=
  match model with
  | Raise x => Raise x
  | Ok embed_batch => Ok (embed_loop embed_batch (length texts) 0 texts [])
  end.

(** The environment of a run whose embeddings come from [model]. *)
Definition with_model (e : Repos.env)
    (model : result (nat -> list str -> result (list (list Z)))) : Repos.env :=
  {| Repos.now := Repos.now e;
     Repos.uuid4 := Repos.uuid4 e;
     Repos.sha256_hex := Repos.sha256_hex e;
     Repos.clone_repository := Repos.clone_repository e;
     Repos.repo_files := Repos.repo_files e;
     Repos.embed_all := embed_all model;
     Repos.write_index_error := Repos.write_index_error e;
     Repos.write_mapping_error := Repos.write_mapping_error e;
     Repos.save_chunks_error := Repos.save_chunks_error e;
     Repos.status_write_error := Repos.status_write_error e |}.

End Embedder.

(** A model of dimension 2 whose first batch fails and whose other batches
    succeed, and forty texts for it. *)
Definition flaky_model (batch : nat) (batch_texts : list str)
    : result (list (list Z)) :=
  match batch with
  | 0 => Raise (RuntimeError "connection reset")
  | _ => Ok ((fun _ => [1%Z; 2%Z]) <$> batch_texts)
  end.

(** A model of dimension 2 whose second batch fails. *)
Definition late_flaky_model (batch : nat) (batch_texts : list str)
    : result (list (list Z)) :=
  match batch with
  | 1 => Raise (RuntimeError "connection reset")
  | _ => Ok ((fun _ => [1%Z; 2%Z]) <$> batch_texts)
  end.

Definition forty_texts : list str := replicate 40 (lit "def f(): return 1").

(** A model that is down: every batch fails. *)
Definition down_model (batch : nat) (batch_texts : list str)
    : result (list (list Z)) :=
  Raise (RuntimeError "connection refused").

(** [t] is a word of [s]: a non-empty run of word characters of [s] that
    no word character precedes and none follows. *)
Definition word_of (s t : str) : Prop :=
  t <> [] /\ forallb isword t = true /\
  exists pre post, s = pre ++ t ++ post /\
    (forall c, last pre = Some c -> isword c = false) /\
    (forall c, head post = Some c -> isword c = false).

(** The two places of a word of [s] during the scan: the word that
    continues the run [cur] read so far and ends where [s] has its first
    character that is no word character, and a word that starts further
    inside [s]. *)
Definition run_word (cur s t : str) : Prop :=
  t <> [] /\
  exists run post, s = run ++ post /\ forallb isword run = true /\
    (forall c, head post = Some c -> isword c = false) /\
    t = rev cur ++ run.

Definition inner_word (s t : str) : Prop :=
  t <> [] /\ forallb isword t = true /\
  exists pre post c0, s = pre ++ t ++ post /\
    last pre = Some c0 /\ isword c0 = false /\
    (forall c, head post = Some c -> isword c = false).

(** ** The stages of an indexing run *)

Section Stages.
Variable e : Repos.env.
Variables repo_id url branch : string.
Variable github_token : option string.

(** The chunks that the parse stage yields. *)
Definition parsed_chunks : list chunk :=
  Repos.parse_files e (Repos.repo_files e) 0.

(** How far a run gets.  Each of these says that a stage has returned, and
    every stage before it: the write of the [INDEXING] status, the clone,
    the parse with at least one chunk, the embedding stage with the
    embeddings [embs], the conversion of the chunks' embeddings to the
    matrix [vs] of dimension [dim], the write of the index file, the write
    of the mapping file, the chunk persistence and the write of the [READY]
    status. *)
Definition marked_indexing : Prop :=
  Repos.status_write_error e INDEXING = None.

Definition cloned : Prop :=
  marked_indexing /\
  exists path, Repos.clone_repository e repo_id url branch github_token = Ok path.

Definition parsed : Prop := cloned /\ parsed_chunks <> [].

Definition embedded (embs : list (list Z)) : Prop :=
  parsed /\ Repos.embed_all e (content <$> parsed_chunks) = Ok embs.

Definition arrayed (embs vs : list (list Z)) (dim : nat) : Prop :=
  embedded embs /\
  Indexer.embeddings_of (Repos.attach_embeddings parsed_chunks embs) = Ok vs /\
  Indexer.matrix_dimension vs = Ok dim.

Definition index_written (embs vs : list (list Z)) (dim : nat) : Prop :=
  arrayed embs vs dim /\ Repos.write_index_error e = None.

Definition mapping_written (embs vs : list (list Z)) (dim : nat) : Prop :=
  index_written embs vs dim /\ Repos.write_mapping_error e = None.

Definition chunks_saved (embs vs : list (list Z)) (dim : nat) : Prop :=
  mapping_written embs vs dim /\ Repos.save_chunks_error e = None.

Definition completed (embs vs : list (list Z)) (dim : nat) : Prop :=
  chunks_saved embs vs dim /\ Repos.status_write_error e READY = None.

(** What a run has written when one of its stages raises: nothing; a
    damaged index file; the new index, of vectors [vs] and dimension [dim],
    beside the old mapping, or beside a damaged mapping; the new index and
    the new mapping, with the old chunks; the new index, mapping and
    chunks. *)
Inductive failure_point : Type :=
| NothingWritten
| IndexDamaged
| IndexReplaced (vs : list (list Z)) (dim : nat)
| MappingDamaged (vs : list (list Z)) (dim : nat)
| FilesReplaced (vs : list (list Z)) (dim : nat)
| ChunksReplaced (vs : list (list Z)) (dim : nat).

(** [stage_raises fp x]: the stages before it having returned, a stage of
    the run raises [x], and [fp] is what the run has written by then.  The
    stages are, in the order of the task: the write of the [INDEXING]
    status, the clone, the check that the parse yielded chunks, the
    embedding stage, the index build (which reads the embeddings, converts
    them to a matrix, writes the index file and writes the mapping file),
    the chunk persistence and the write of the [READY] status. *)
Inductive stage_raises : failure_point -> exn -> Prop :=
| raises_mark_indexing x :
    Repos.status_write_error e INDEXING = Some x ->
    stage_raises NothingWritten x
| raises_clone x :
    marked_indexing ->
    Repos.clone_repository e repo_id url branch github_token = Raise x ->
    stage_raises NothingWritten x
| raises_no_chunks :
    cloned -> parsed_chunks = [] ->
    stage_raises NothingWritten
      (ValueError "No code chunks extracted from repository")
| raises_embed x :
    parsed -> Repos.embed_all e (content <$> parsed_chunks) = Raise x ->
    stage_raises NothingWritten x
| raises_read_embeddings embs x :
    embedded embs ->
    Indexer.embeddings_of (Repos.attach_embeddings parsed_chunks embs) = Raise x ->
    stage_raises NothingWritten x
| raises_matrix embs vs x :
    embedded embs ->
    Indexer.embeddings_of (Repos.attach_embeddings parsed_chunks embs) = Ok vs ->
    Indexer.matrix_dimension vs = Raise x ->
    stage_raises NothingWritten x
| raises_index_refused embs vs dim x :
    arrayed embs vs dim -> Repos.write_index_error e = Some (Refused x) ->
    stage_raises NothingWritten x
| raises_index_torn embs vs dim x :
    arrayed embs vs dim -> Repos.write_index_error e = Some (Torn x) ->
    stage_raises IndexDamaged x
| raises_mapping_refused embs vs dim x :
    index_written embs vs dim ->
    Repos.write_mapping_error e = Some (Refused x) ->
    stage_raises (IndexReplaced vs dim) x
| raises_mapping_torn embs vs dim x :
    index_written embs vs dim ->
    Repos.write_mapping_error e = Some (Torn x) ->
    stage_raises (MappingDamaged vs dim) x
| raises_save_chunks embs vs dim x :
    mapping_written embs vs dim -> Repos.save_chunks_error e = Some x ->
    stage_raises (FilesReplaced vs dim) x
| raises_mark_ready embs vs dim x :
    chunks_saved embs vs dim -> Repos.status_write_error e READY = Some x ->
    stage_raises (ChunksReplaced vs dim) x.

End Stages.

(** What a run that has written [fp] leaves of the files and chunks of the
    repository: [w] is the state before the run, [w'] the state after it and
    [chunks] are the chunks of the run. *)
Definition left_by (fp : failure_point) (repo_id : string)
    (chunks : list chunk) (w w' : world) : Prop :=
  match fp with
  | NothingWritten =>
      index_files w' = index_files w /\ mapping_files w' = mapping_files w /\
      chunks_table w' = chunks_table w
  | IndexDamaged =>
      index_files w' = <[repo_id := Damaged]> (index_files w) /\
      mapping_files w' = mapping_files w /\
      chunks_table w' = chunks_table w
  | IndexReplaced vs dim =>
      index_files w'
      = <[repo_id := Intact {| dimension := dim; xb := vs |}]> (index_files w) /\
      mapping_files w' = mapping_files w /\
      chunks_table w' = chunks_table w
  | MappingDamaged vs dim =>
      index_files w'
      = <[repo_id := Intact {| dimension := dim; xb := vs |}]> (index_files w) /\
      mapping_files w' = <[repo_id := Damaged]> (mapping_files w) /\
      chunks_table w' = chunks_table w
  | FilesReplaced vs dim =>
      index_files w'
      = <[repo_id := Intact {| dimension := dim; xb := vs |}]> (index_files w) /\
      mapping_files w'
      = <[repo_id := Intact (chunk_id <$> chunks)]> (mapping_files w) /\
      chunks_table w' = chunks_table w
  | ChunksReplaced vs dim =>
      index_files w'
      = <[repo_id := Intact {| dimension := dim; xb := vs |}]> (index_files w) /\
      mapping_files w'
      = <[repo_id := Intact (chunk_id <$> chunks)]> (mapping_files w) /\
      rows_of repo_id (chunks_table w') = chunks /\
      rows_of_others repo_id (chunks_table w')
      = rows_of_others repo_id (chunks_table w)
  end.

(** ** The chunker: proofs *)

Section ChunkerFacts.
Variable uuid4 : nat -> string.
Variable sha256_hex : str -> string.
Variables fp lang : string.
Variable lines : list str.

Let stride := Parser.chunk_size_lines - Parser.overlap_lines.
Let loop := Parser.chunk_loop uuid4 sha256_hex.

Lemma window_end_bounds i :
  i < length lines -> i + 1 <= Parser.window_end lines i <= length lines.
Proof. unfold Parser.window_end, Parser.chunk_size_lines. lia. Qed.

Lemma window_end_mono i j :
  i <= j -> Parser.window_end lines i <= Parser.window_end lines j.
Proof. unfold Parser.window_end. lia. Qed.

(** Once the fuel covers the lines that remain, more fuel changes nothing:
    the loop ends by its own test. *)
Lemma chunk_loop_enough_fuel fuel fuel' i drawn :
  length lines - i <= fuel -> length lines - i <= fuel' ->
  loop fuel fp lang lines i drawn = loop fuel' fp lang lines i drawn.
Proof.
  subst loop. revert fuel' i drawn.
  induction fuel as [|fuel IH]; intros fuel' i drawn Hf Hf'.
  - destruct fuel' as [|fuel']; [done|]. cbn [Parser.chunk_loop].
    destruct (Nat.ltb_spec i (length lines)); [lia|done].
  - destruct fuel' as [|fuel'].
    + cbn [Parser.chunk_loop].
      destruct (Nat.ltb_spec i (length lines)); [lia|done].
    + cbn [Parser.chunk_loop].
      destruct (Nat.ltb_spec i (length lines)); [|done].
      assert (Hs : Parser.chunk_size_lines - Parser.overlap_lines = 45) by done.
      rewrite Hs.
      destruct (_ <? 10); [apply IH; lia|].
      f_equal. apply IH; lia.
Qed.

(** Every emitted chunk is the window of a visited start that was not
    skipped, with its text and its line bounds. *)
Lemma chunk_loop_sound fuel i drawn c :
  c ∈ loop fuel fp lang lines i drawn ->
  exists k, let j := i + k * stride in
    j < length lines /\ ~ skipped lines j /\
    start_line c = j + 1 /\ end_line c = Parser.window_end lines j /\
    content c = Parser.window_text lines j.
Proof.
  subst loop stride. revert i drawn.
  induction fuel as [|fuel IH]; intros i drawn Hc; cbn [Parser.chunk_loop] in Hc.
  - by apply elem_of_nil in Hc.
  - destruct (Nat.ltb_spec i (length lines)) as [Hi|Hi];
      [|by apply elem_of_nil in Hc].
    assert (Hnext : forall d, c ∈ Parser.chunk_loop uuid4 sha256_hex fuel fp lang lines
                (i + (Parser.chunk_size_lines - Parser.overlap_lines)) d ->
              exists k, let j := i + k * (Parser.chunk_size_lines - Parser.overlap_lines) in
                j < length lines /\ ~ skipped lines j /\
                start_line c = j + 1 /\ end_line c = Parser.window_end lines j /\
                content c = Parser.window_text lines j).
    { intros d Hd. destruct (IH _ _ Hd) as (k & Hk). exists (S k).
      cbn zeta in *. replace (i + S k * _) with
        (i + (Parser.chunk_size_lines - Parser.overlap_lines)
         + k * (Parser.chunk_size_lines - Parser.overlap_lines)) by lia.
      exact Hk. }
    destruct (Nat.ltb_spec (length (strip (Parser.window_text lines i))) 10) as [Hs|Hs].
    + eauto.
    + apply elem_of_cons in Hc as [->|Hc]; [|eauto].
      exists 0. cbn zeta. rewrite Nat.add_0_r. unfold skipped. cbn.
      repeat split; try done. lia.
Qed.

(** Every visited start whose window is not skipped yields a chunk. *)
Lemma chunk_loop_complete fuel i drawn k :
  let j := i + k * stride in
  length lines - i <= fuel ->
  j < length lines -> ~ skipped lines j ->
  exists c, c ∈ loop fuel fp lang lines i drawn /\ start_line c = j + 1.
Proof.
  subst loop stride. cbn zeta. revert fuel i drawn.
  induction k as [|k IH]; intros fuel i drawn Hf Hj Hs.
  - rewrite Nat.add_0_r in Hj, Hs. rewrite Nat.add_0_r.
    destruct fuel as [|fuel]; [lia|]. cbn [Parser.chunk_loop].
    destruct (Nat.ltb_spec i (length lines)); [|lia].
    destruct (Nat.ltb_spec (length (strip (Parser.window_text lines i))) 10) as [Hs'|Hs'].
    + by destruct Hs.
    + eexists. split; [apply list_elem_of_here|done].
  - assert (Hs45 : Parser.chunk_size_lines - Parser.overlap_lines = 45) by done.
    rewrite Hs45 in *.
    destruct fuel as [|fuel]; [lia|]. cbn [Parser.chunk_loop].
    destruct (Nat.ltb_spec i (length lines)); [|lia].
    rewrite Hs45.
    destruct (IH fuel (i + 45) drawn) as (c & Hc & Hc'); [lia| |  |].
    { replace (i + 45 + k * 45) with (i + S k * 45) by lia. done. }
    { replace (i + 45 + k * 45) with (i + S k * 45) by lia. done. }
    destruct (IH fuel (i + 45) (S drawn)) as (c2 & Hc2 & Hc2'); [lia| |  |].
    { replace (i + 45 + k * 45) with (i + S k * 45) by lia. done. }
    { replace (i + 45 + k * 45) with (i + S k * 45) by lia. done. }
    replace (i + S k * 45) with (i + 45 + k * 45) by lia.
    destruct (_ <? 10).
    + exists c. done.
    + exists c2. split; [by apply list_elem_of_further|done].
Qed.

(** The start lines increase strictly along the output. *)
Lemma chunk_loop_starts fuel i drawn :
  StronglySorted lt (start_line <$> loop fuel fp lang lines i drawn) /\
  Forall (fun c => i + 1 <= start_line c) (loop fuel fp lang lines i drawn).
Proof.
  subst loop. revert i drawn.
  induction fuel as [|fuel IH]; intros i drawn; cbn [Parser.chunk_loop].
  - split; constructor.
  - destruct (Nat.ltb_spec i (length lines)); [|split; constructor].
    assert (Hs45 : Parser.chunk_size_lines - Parser.overlap_lines = 45) by done.
    rewrite Hs45.
    destruct (_ <? 10).
    + destruct (IH (i + 45) drawn) as [H1 H2]. split; [done|].
      eapply Forall_impl; [exact H2|]. cbn. intros; lia.
    + destruct (IH (i + 45) (S drawn)) as [H1 H2]. split.
      * rewrite fmap_cons. constructor; [done|]. cbn.
        apply Forall_fmap. eapply Forall_impl; [exact H2|]. cbn. intros; lia.
      * constructor; [cbn; lia|].
        eapply Forall_impl; [exact H2|]. cbn. intros; lia.
Qed.
End ChunkerFacts.

Lemma sorted_last_max (l : list nat) x y :
  StronglySorted lt l -> x ∈ l -> last l = Some y -> x <= y.
Proof.
  intros Hs Hx Hl. apply last_Some in Hl as [l' ->].
  apply elem_of_app in Hx as [Hx|Hx].
  - apply Nat.lt_le_incl.
    apply (StronglySorted_app_1_elem_of lt l' [y]); [done|done|].
    apply list_elem_of_here.
  - apply list_elem_of_singleton in Hx. lia.
Qed.

(** C9.  Every chunk that the chunker emits has a text whose trimmed length
    is at least 10 characters: a window with a shorter trimmed text is never
    emitted. *)
Theorem chunk_content_min_length (uuid4 : nat -> string)
    (sha256_hex : str -> string) (text : str) (fp lang : string) :
  Forall (fun c => 10 <= length (strip (content c)))
    (Parser.chunk_content uuid4 sha256_hex text fp lang).
Proof.
  unfold Parser.chunk_content. destruct (splitlines text) as [|l ls] eqn:E.
  - constructor.
  - apply Forall_forall. intros c Hc.
    apply chunk_loop_sound in Hc as (k & _ & Hs & _ & _ & ->).
    unfold skipped in Hs. lia.
Qed.

(** C6.  The chunks of a file come in order and reach the end of the file:
    the start lines do not decrease along the output, every chunk has
    [end_line >= start_line], and the last chunk ends on the last line of the
    file exactly when some tail window was not skipped as too short. *)
Theorem chunk_content_covers (uuid4 : nat -> string)
    (sha256_hex : str -> string) (text : str) (fp lang : string) :
  text <> [] ->
  let lines := splitlines text in
  let chunks := Parser.chunk_content uuid4 sha256_hex text fp lang in
  StronglySorted le (start_line <$> chunks) /\
  Forall (fun c => start_line c <= end_line c) chunks /\
  (last (end_line <$> chunks) = Some (length lines) <->
   exists i, tail_window lines i /\ ~ skipped lines i).
Proof.
  intros _. cbn zeta. unfold Parser.chunk_content.
  destruct (splitlines text) as [|l ls] eqn:E.
  - split; [constructor|]. split; [constructor|]. split; [done|].
    intros (i & ((Hi & _) & _) & _). cbn in Hi. lia.
  - set (lines := l :: ls) in *.
    set (cs := Parser.chunk_loop uuid4 sha256_hex (length lines) fp lang lines 0 0).
    destruct (chunk_loop_starts uuid4 sha256_hex fp lang lines (length lines) 0 0)
      as [Hsorted _]. fold cs in Hsorted.
    assert (Hsound : forall c, c ∈ cs -> exists k, let j := k * 45 in
              j < length lines /\ ~ skipped lines j /\
              start_line c = j + 1 /\ end_line c = Parser.window_end lines j).
    { intros c Hc. apply chunk_loop_sound in Hc as (k & H1 & H2 & H3 & H4 & _).
      exists k. done. }
    split; [|split; [|split]].
    + clear -Hsorted. induction Hsorted as [|a l0 Hl IH Ha]; constructor; [done|].
      eapply Forall_impl; [exact Ha|]. cbn. intros; lia.
    + apply Forall_forall. intros c Hc.
      destruct (Hsound c Hc) as (k & Hj & _ & -> & ->).
      pose proof (window_end_bounds lines (k * 45) Hj). lia.
    + intros Hlast. rewrite fmap_last in Hlast.
      destruct (last cs) as [c|] eqn:Ec; [|done]. injection Hlast as Hend.
      assert (Hc : c ∈ cs).
      { apply last_Some in Ec as [l' ->]. apply elem_of_app. right.
        apply list_elem_of_here. }
      destruct (Hsound c Hc) as (k & Hj & Hs & _ & He).
      exists (k * 45). split; [|done]. split; [split; [done|by exists k]|].
      rewrite <- He, Hend. done.
    + intros (i & ((Hi & k & Hk) & Htail) & Hs).
      change (Parser.chunk_size_lines - Parser.overlap_lines) with 45 in Hk. subst i.
      destruct (chunk_loop_complete uuid4 sha256_hex fp lang lines (length lines) 0 0 k)
        as (c & Hc & Hstart); [lia|done|done|]. fold cs in Hc.
      change (0 + k * (Parser.chunk_size_lines - Parser.overlap_lines)) with (k * 45) in Hstart.
      rewrite fmap_last.
      destruct (last cs) as [c'|] eqn:Ec.
      2:{ apply last_None in Ec. rewrite Ec in Hc. by apply elem_of_nil in Hc. }
      cbn. f_equal.
      assert (Hc' : c' ∈ cs).
      { apply last_Some in Ec as [l' ->]. apply elem_of_app. right.
        apply list_elem_of_here. }
      destruct (Hsound c' Hc') as (k' & Hj' & _ & Hst' & ->).
      assert (start_line c <= start_line c').
      { apply (sorted_last_max (start_line <$> cs)); [done| |].
        - by apply list_elem_of_fmap_2.
        - by rewrite fmap_last, Ec. }
      pose proof (window_end_mono lines (k * 45) (k' * 45)).
      pose proof (window_end_bounds lines (k' * 45) Hj').
      change (S (length ls)) with (length lines). lia.
Qed.

Lemma chunk_content_covers_witness :
  let text := lit "def handler(request):
    return respond(request)
" in
  text <> [] /\
  last (end_line <$> Parser.chunk_content (fun _ => "id"%string)
          (fun _ => "hash"%string) text "a.py" "python")
  = Some (length (splitlines text)).
Proof.
  cbn zeta. split; [done|].
  apply (chunk_content_covers (fun _ => "id"%string) (fun _ => "hash"%string)
           _ "a.py"%string "python"%string); [done|].
  exists 0. split.
  - split; [split; [vm_compute; lia|by exists 0]|by vm_compute].
  - unfold skipped. vm_compute. lia.
Defined.

(** ** Text: proofs *)

Lemma starts_with_spec p s :
  starts_with p s = true <-> exists post, s = p ++ post.
Proof.
  revert s. induction p as [|a p IH]; intros s; cbn.
  - split; [eauto|done].
  - destruct s as [|b s].
    + split; [done|]. intros (post & H). discriminate.
    + rewrite andb_true_iff, IH, Ascii.eqb_eq. split.
      * intros (-> & post & ->). eauto.
      * intros (post & H). injection H as -> ->. eauto.
Qed.

Lemma contains_spec p s : contains p s = true <-> occurs p s.
Proof.
  unfold occurs. induction s as [|b s IH]; cbn [contains].
  - rewrite orb_false_r, starts_with_spec. split.
    + intros (post & ->). by exists [], post.
    + intros (pre & post & H). destruct pre; [|done]. cbn in H. eauto.
  - rewrite orb_true_iff, IH, starts_with_spec. split.
    + intros [(post & ->)|(pre & post & ->)].
      * by exists [], post.
      * by exists (b :: pre), post.
    + intros (pre & post & H). destruct pre as [|c pre]; cbn in H.
      * left. eauto.
      * right. injection H as -> ->. eauto.
Qed.

(** ** Citation extraction: proofs *)

Section Citations.
Import Generator.

Lemma span_digits_app s ds rest :
  span_digits s = (ds, rest) ->
  s = ds ++ rest /\ forallb isdigit ds = true.
Proof.
  revert ds rest. induction s as [|c s IH]; intros ds rest; cbn.
  - intros [= <- <-]. done.
  - destruct (isdigit c) eqn:Ec.
    + destruct (span_digits s) as [ds' rest'].
      intros [= <- <-]. destruct (IH _ _ eq_refl) as [-> Hd].
      split; [done|]. cbn. by rewrite Ec.
    + intros [= <- <-]. done.
Qed.

Lemma span_digits_stop ds c post :
  forallb isdigit ds = true -> isdigit c = false ->
  span_digits (ds ++ c :: post) = (ds, c :: post).
Proof.
  intros Hd Hc. induction ds as [|x ds IH]; cbn.
  - by rewrite Hc.
  - cbn in Hd. apply andb_true_iff in Hd as [-> Hd]. by rewrite IH.
Qed.

Lemma match_source_at_inv s ds len :
  match_source_at s = Some (ds, len) ->
  ds <> [] /\ forallb isdigit ds = true /\ len = length (marker ds) /\
  exists post, s = marker ds ++ post.
Proof.
  unfold match_source_at.
  destruct (starts_with (lit "[Source ") s) eqn:Es; [|done].
  apply starts_with_spec in Es as (post & ->).
  rewrite drop_app_length' by done.
  destruct (span_digits post) as [ds' rest] eqn:Esp.
  apply span_digits_app in Esp as [-> Hd].
  destruct ds' as [|d ds']; [done|]. destruct rest as [|c rest]; [done|].
  destruct (Ascii.eqb_spec c "]"); [|done]. subst c.
  intros [= <- <-]. split; [done|]. split; [done|]. split.
  - unfold marker. rewrite !length_app. cbn. lia.
  - exists rest. unfold marker. by rewrite <- !app_assoc.
Qed.

Lemma match_source_at_marker ds post :
  ds <> [] -> forallb isdigit ds = true ->
  match_source_at (marker ds ++ post) = Some (ds, length (marker ds)).
Proof.
  intros Hne Hd. unfold match_source_at, marker.
  rewrite <- !app_assoc.
  assert (Hs : starts_with (lit "[Source ") (lit "[Source " ++ ds ++ lit "]" ++ post) = true).
  { apply starts_with_spec. eauto. }
  rewrite Hs, drop_app_length' by done.
  change (lit "]" ++ post) with ("]"%char :: post).
  rewrite span_digits_stop by done.
  destruct ds as [|d ds]; [done|].
  do 2 f_equal. rewrite !length_app. cbn. lia.
Qed.

(** No character of a match after the first is an opening bracket, so a
    match cannot hide the start of another one. *)
Lemma marker_tail_no_bracket ds i c :
  forallb isdigit ds = true ->
  (lit "Source " ++ ds ++ lit "]") !! i = Some c -> c <> "["%char.
Proof.
  intros Hd Hi. apply list_elem_of_lookup_2 in Hi.
  rewrite !elem_of_app in Hi. destruct Hi as [Hi|[Hi|Hi]].
  - cbn in Hi. rewrite !elem_of_cons in Hi.
    intros ->. repeat (destruct Hi as [Hi|Hi]; [discriminate|]).
    by apply elem_of_nil in Hi.
  - intros ->. rewrite forallb_forall in Hd.
    apply list_elem_of_In, Hd in Hi. discriminate.
  - cbn in Hi. apply list_elem_of_singleton in Hi. by subst c.
Qed.

Lemma findall_source_sound s skip ds :
  ds ∈ findall_source skip s ->
  ds <> [] /\ forallb isdigit ds = true /\ occurs (marker ds) s.
Proof.
  revert skip. induction s as [|c s IH]; intros skip; cbn [findall_source].
  - intros H. by apply elem_of_nil in H.
  - assert (Hext : forall k, ds ∈ findall_source k s ->
              ds <> [] /\ forallb isdigit ds = true /\ occurs (marker ds) (c :: s)).
    { intros k Hk. destruct (IH k Hk) as (H1 & H2 & pre & post & ->).
      split; [done|]. split; [done|]. by exists (c :: pre), post. }
    destruct skip as [|k]; [|by apply Hext].
    destruct (match_source_at (c :: s)) as [[ds' len]|] eqn:Em; [|by apply Hext].
    intros [->|H]%elem_of_cons; [|by eapply Hext].
    apply match_source_at_inv in Em as (H1 & H2 & _ & post & ->).
    split; [done|]. split; [done|]. by exists [], post.
Qed.

Lemma findall_source_complete s skip pre ds post :
  s = pre ++ marker ds ++ post ->
  ds <> [] -> forallb isdigit ds = true -> skip <= length pre ->
  ds ∈ findall_source skip s.
Proof.
  intros Hs Hne Hd. revert skip pre Hs.
  induction s as [|c s IH]; intros skip pre Hs Hskip.
  - destruct pre; discriminate.
  - cbn [findall_source]. destruct skip as [|k].
    + destruct pre as [|p pre].
      * cbn [app] in Hs. rewrite Hs, match_source_at_marker by done.
        apply list_elem_of_here.
      * rewrite <- app_comm_cons in Hs. injection Hs as -> Hs.
        assert (Hl : s !! length pre = Some "["%char).
        { rewrite Hs, lookup_app_r by done. by rewrite Nat.sub_diag. }
        destruct (match_source_at _) as [[ds' len]|] eqn:Em.
        2:{ eapply IH; [done|lia]. }
        apply list_elem_of_further.
        apply match_source_at_inv in Em as (_ & Hd' & -> & post' & Hm).
        eapply IH; [done|].
        destruct (Nat.le_gt_cases (length (marker ds') - 1) (length pre)) as [|Hlt];
          [done|exfalso].
        unfold marker in Hm, Hlt. cbn [lit list_ascii_of_string app] in Hm.
        injection Hm as -> Hm.
        pose proof (Hm : s = (lit "Source " ++ ds' ++ lit "]") ++ post') as Hm'.
        rewrite Hm', lookup_app_l in Hl.
        -- by eapply marker_tail_no_bracket in Hl.
        -- rewrite !length_app in *. cbn in *. lia.
    + destruct pre as [|p pre]; [cbn in Hskip; lia|].
      rewrite <- app_comm_cons in Hs. injection Hs as -> Hs. eapply IH; [done|cbn in Hskip; lia].
Qed.

(** The pattern finds exactly the sources that the answer refers to. *)
Lemma unique_sources_spec answer n :
  n ∈ unique_sources answer <-> cites_source answer n.
Proof.
  unfold unique_sources, cites_source.
  rewrite elem_of_list_to_set, list_elem_of_fmap. split.
  - intros (ds & -> & Hds). exists ds.
    apply findall_source_sound in Hds as (H1 & H2 & H3). done.
  - intros (ds & H1 & H2 & <- & pre & post & H3). exists ds. split; [done|].
    eapply findall_source_complete; [exact H3|done|done|lia].
Qed.
End Citations.

Section CitationOrder.
Import Generator.

Lemma sorted_nodup_strict (l : list N) :
  StronglySorted N.le l -> NoDup l -> StronglySorted N.lt l.
Proof.
  induction 1 as [|x l Hl IH Hx]; intros Hnd; [constructor|].
  apply NoDup_cons in Hnd as [Hnotin Hnd]. constructor; [auto|].
  apply Forall_forall. intros y Hy.
  rewrite Forall_forall in Hx. specialize (Hx y Hy).
  assert (x <> y) by (intros ->; done). lia.
Qed.

Lemma strict_sorted_filter (P : N -> Prop) `{!forall n, Decision (P n)}
    (l : list N) :
  StronglySorted N.lt l -> StronglySorted N.lt (filter P l).
Proof.
  induction 1 as [|x l Hl IH Hx]; [constructor|].
  rewrite filter_cons. destruct (decide (P x)); [|done].
  constructor; [done|]. apply Forall_forall. intros y Hy.
  apply list_elem_of_filter in Hy as [_ Hy].
  rewrite Forall_forall in Hx. auto.
Qed.

Lemma sorted_sources_sorted answer : StronglySorted N.lt (sorted_sources answer).
Proof.
  unfold sorted_sources. apply sorted_nodup_strict.
  - apply StronglySorted_merge_sort; apply _.
  - rewrite merge_sort_Permutation. apply NoDup_elements.
Qed.

Lemma sorted_sources_spec answer n :
  n ∈ sorted_sources answer <-> cites_source answer n.
Proof.
  unfold sorted_sources.
  rewrite merge_sort_Permutation, elem_of_elements. apply unique_sources_spec.
Qed.

Lemma make_citation_cites c : cites_chunk c (make_citation c).
Proof.
  unfold cites_chunk, make_citation. cbn [cit_file_path cit_start_line cit_end_line cit_snippet].
  split; [done|]. split; [done|]. split; [done|].
  destruct (Nat.ltb_spec 200 (length (content c))); case_decide; try lia.
  - done.
  - by rewrite app_nil_r.
Qed.

Lemma cite_sources_spec chunks nums :
  Forall2 (fun n cit => exists c, chunks !! N.to_nat (n - 1) = Some c /\ cites_chunk c cit)
    (filter (in_bounds chunks) nums) (cite_sources chunks nums).
Proof.
  induction nums as [|n nums IH]; [constructor|].
  cbn [cite_sources]. rewrite filter_cons. unfold in_bounds at 1.
  destruct (N.leb_spec 1 n), (N.leb_spec n (N.of_nat (length chunks)));
    cbn [andb]; case_decide; try lia; try done.
  destruct (lookup_lt_is_Some_2 chunks (N.to_nat (n - 1))) as [c Hc]; [lia|].
  rewrite Hc. constructor; [|done]. exists c. split; [done|].
  apply make_citation_cites.
Qed.
End CitationOrder.

(** C1.  Every citation refers to a retrieved chunk.  The citations of an
    answer correspond, one for one and in the same order, to the source
    numbers that the answer refers to by [[Source N]] and that lie in
    [1 .. len(chunks)]: these numbers are listed in strictly ascending order
    (so each once), and the citation of number [N] is built from chunk [N]
    of the list, with the first 200 characters of its content, followed by
    the ellipsis when the content is longer. *)
Theorem extract_citations_grounded (answer : str) (chunks : list chunk) :
  exists nums : list N,
    StronglySorted N.lt nums /\
    (forall n, n ∈ nums <-> cites_source answer n /\ in_bounds chunks n) /\
    Forall2
      (fun n cit =>
         exists c, chunks !! N.to_nat (n - 1) = Some c /\ cites_chunk c cit)
      nums (Generator.extract_citations answer chunks).
Proof.
  exists (filter (in_bounds chunks) (Generator.sorted_sources answer)).
  split; [|split].
  - apply strict_sorted_filter, sorted_sources_sorted.
  - intros n. rewrite list_elem_of_filter, sorted_sources_spec. tauto.
  - apply cite_sources_spec.
Qed.

(** ** Confidence: proofs *)

Lemma uncertain_detected answer :
  uncertain answer ->
  existsb (fun p => contains p (lower answer)) Generator.uncertainty_phrases = true.
Proof.
  intros (p & Hp & Hocc). apply existsb_exists. exists p.
  split; [by apply list_elem_of_In|by apply contains_spec].
Qed.

(** C4, as the code has it.  The word-count rule is evaluated before the
    uncertainty rule: an answer with at least one citation and at least 50
    characters that contains an uncertainty phrase has confidence [low],
    unless it has more than 100 words and fewer than 2 citations, in which
    case its confidence is [medium]. *)
Theorem calculate_confidence_uncertain (answer : str)
    (citations : list Generator.citation) (chunks : list chunk) :
  citations <> [] -> 50 <= length answer -> uncertain answer ->
  Generator.calculate_confidence answer citations chunks =
    if decide (100 < length (split answer) /\ length citations < 2)
    then Generator.medium else Generator.low.
Proof.
  intros Hc Hlen Hu. unfold Generator.calculate_confidence.
  destruct citations as [|cit citations]; [done|].
  destruct (Nat.ltb_spec (length answer) 50); [lia|].
  rewrite (uncertain_detected answer Hu).
  destruct (Nat.ltb_spec 100 (length (split answer))),
           (Nat.ltb_spec (length (cit :: citations)) 2);
    cbn [andb]; case_decide; try done; lia.
Qed.

Lemma calculate_confidence_uncertain_witness :
  Generator.calculate_confidence hedged_short_answer [sample_citation] []
  = Generator.low.
Proof.
  apply (calculate_confidence_uncertain hedged_short_answer [sample_citation] []).
  - done.
  - vm_compute. lia.
  - exists (lit "might"). split.
    + apply list_elem_of_In. vm_compute. tauto.
    + exists (lit "the retry policy "),
             (lit " be configured in [source 1], as far as shown.").
      reflexivity.
Defined.

(** The claim of C4 fails on an answer of 101 words with one citation that
    contains "might": the word-count rule answers [medium] first. *)
Lemma calculate_confidence_uncertain_medium :
  [sample_citation] <> [] /\
  50 <= length hedged_long_answer /\
  uncertain hedged_long_answer /\
  Generator.calculate_confidence hedged_long_answer [sample_citation] []
  = Generator.medium.
Proof.
  split; [done|]. split; [vm_compute; lia|]. split; [|by vm_compute].
  exists (lit "might"). split.
  - apply list_elem_of_In. vm_compute. tauto.
  - exists [], (" "%char :: concat (replicate 100 (lit "might "))).
    by vm_compute.
Qed.

(** ** Stable sorting: proofs *)

Section StableSort.
Context {A : Type}.

Lemma stable_insert_Permutation (prec : A -> A -> bool) x s :
  stable_insert prec x s ≡ₚ x :: s.
Proof.
  induction s as [|y s IH]; cbn; [done|].
  destruct (prec y x); [|done]. rewrite IH. apply Permutation_swap.
Qed.

Lemma stable_sort_Permutation (prec : A -> A -> bool) l :
  stable_sort prec l ≡ₚ l.
Proof.
  induction l as [|x l IH]; cbn; [done|].
  by rewrite stable_insert_Permutation, IH.
Qed.

Lemma stable_sort_fmap {B : Type} (f : A -> B) (prec : A -> A -> bool)
    (prec' : B -> B -> bool) l :
  (forall a b, prec' (f a) (f b) = prec a b) ->
  stable_sort prec' (f <$> l) = f <$> stable_sort prec l.
Proof.
  intros Hf. induction l as [|x l IH]; cbn; [done|].
  rewrite IH. generalize (stable_sort prec l). intros s.
  induction s as [|y s IHs]; cbn; [done|].
  rewrite Hf. destruct (prec y x); cbn; [by rewrite IHs|done].
Qed.

(** Sorting by a key, greatest first. *)
Variable key : A -> Q.

Lemma key_desc_true y x : (by_key_desc key) y x = true -> (key x <= key y)%Q.
Proof.
  unfold by_key_desc, Qltb. rewrite negb_true_iff. intros H.
  apply Qlt_le_weak, Qnot_le_lt. intros Hle.
  apply Qle_bool_iff in Hle. congruence.
Qed.

Lemma key_desc_false y x : (by_key_desc key) y x = false -> (key y <= key x)%Q.
Proof.
  unfold by_key_desc, Qltb. rewrite negb_false_iff. apply Qle_bool_iff.
Qed.

Lemma key_desc_tie y x v :
  (by_key_desc key) y x = true ->
  Qeq_bool (key x) v = true -> Qeq_bool (key y) v = true -> False.
Proof.
  unfold by_key_desc, Qltb. rewrite negb_true_iff, !Qeq_bool_iff.
  intros H Hx Hy.
  assert (Hle : (key y <= key x)%Q) by (rewrite Hx, Hy; apply Qle_refl).
  apply Qle_bool_iff in Hle. congruence.
Qed.

Lemma stable_insert_sorted x s :
  StronglySorted (fun a b => (key b <= key a)%Q) s ->
  StronglySorted (fun a b => (key b <= key a)%Q) (stable_insert (by_key_desc key) x s).
Proof.
  induction 1 as [|y s Hs IH Hy]; cbn.
  - repeat constructor.
  - destruct ((by_key_desc key) y x) eqn:E.
    + constructor; [done|].
      eapply Forall_forall. intros z Hz.
      rewrite stable_insert_Permutation in Hz.
      apply elem_of_cons in Hz as [->|Hz].
      * by apply key_desc_true.
      * rewrite Forall_forall in Hy. auto.
    + constructor; [by constructor|].
      apply key_desc_false in E. constructor; [done|].
      eapply Forall_impl; [exact Hy|]. cbn. intros z Hz.
      eapply Qle_trans; eauto.
Qed.

Lemma stable_sort_sorted l :
  StronglySorted (fun a b => (key b <= key a)%Q) (stable_sort (by_key_desc key) l).
Proof.
  induction l as [|x l IH]; cbn; [constructor|]. by apply stable_insert_sorted.
Qed.

(** Stability: the elements of any one key value keep their order. *)
Lemma stable_insert_ties x s v :
  List.filter (fun c => Qeq_bool (key c) v) (stable_insert (by_key_desc key) x s)
  = List.filter (fun c => Qeq_bool (key c) v) (x :: s).
Proof.
  induction s as [|y s IH]; [done|]. cbn [stable_insert].
  destruct ((by_key_desc key) y x) eqn:E; [|done].
  cbn [List.filter] in *. rewrite IH.
  destruct (Qeq_bool (key x) v) eqn:Ex, (Qeq_bool (key y) v) eqn:Ey; try done.
  destruct (key_desc_tie y x v); done.
Qed.

Lemma stable_sort_ties l v :
  List.filter (fun c => Qeq_bool (key c) v) (stable_sort (by_key_desc key) l)
  = List.filter (fun c => Qeq_bool (key c) v) l.
Proof.
  induction l as [|x l IH]; [done|]. cbn [stable_sort].
  rewrite stable_insert_ties. cbn [List.filter]. by rewrite IH.
Qed.
End StableSort.

(** ** Re-ranking: proofs *)

Lemma rerank_chunks_eq query chunks :
  Retriever.rerank_chunks query chunks
  = Retriever.set_rerank_score None
    <$> stable_sort (by_key_desc (keyword_score query)) chunks.
Proof.
  destruct chunks as [|c chunks]; [done|].
  unfold Retriever.rerank_chunks, Retriever.sorted_by_score.
  generalize (c :: chunks). intros l.
  rewrite (stable_sort_fmap _ (by_key_desc (keyword_score query))) by done.
  rewrite <- list_fmap_compose. by apply list_fmap_ext.
Qed.

Lemma same_fields_pop c : same_fields c (Retriever.set_rerank_score None c).
Proof. by repeat split. Qed.

(** C10.  Re-ranking returns the chunks it was given, in some order, none
    dropped and none twice; no returned chunk has the key [_rerank_score],
    and every other key has the value it had. *)
Theorem rerank_chunks_frame (query : str) (chunks : list chunk) :
  chunks <> [] ->
  exists reordered,
    reordered ≡ₚ chunks /\
    Forall2 same_fields reordered (Retriever.rerank_chunks query chunks) /\
    Forall (fun c => rerank_score c = None) (Retriever.rerank_chunks query chunks).
Proof.
  intros _. rewrite rerank_chunks_eq.
  exists (stable_sort (by_key_desc (keyword_score query)) chunks).
  split; [apply stable_sort_Permutation|]. split.
  - apply Forall2_fmap_r, Forall_Forall2_diag, Forall_forall.
    intros c _. apply same_fields_pop.
  - apply Forall_fmap, Forall_forall. done.
Qed.

Lemma rerank_chunks_frame_witness :
  exists reordered,
    reordered ≡ₚ [chunk_a; chunk_b] /\
    Forall2 same_fields reordered
      (Retriever.rerank_chunks (lit "retry policy") [chunk_a; chunk_b]) /\
    Forall (fun c => rerank_score c = None)
      (Retriever.rerank_chunks (lit "retry policy") [chunk_a; chunk_b]).
Proof.
  apply (rerank_chunks_frame (lit "retry policy") [chunk_a; chunk_b]). done.
Defined.

(** ** Search and retrieval: proofs *)

Lemma index_search_labels ix q k labels :
  Indexer.index_search ix q k = Ok labels ->
  (0 < k)%Z /\ length q = dimension ix /\ length labels = Z.to_nat k.
Proof.
  unfold Indexer.index_search.
  destruct (Nat.eqb_spec (length q) (dimension ix)); [|done].
  destruct (Z.ltb_spec 0 k); [|done]. cbn [negb].
  intros [= <-]. split; [done|]. split; [done|].
  rewrite length_app, length_fmap, length_replicate, length_take. lia.
Qed.

Lemma collect_chunk_ids_length chunk_ids labels cids :
  Indexer.collect_chunk_ids chunk_ids labels = Ok cids ->
  length cids <= length labels.
Proof.
  revert cids. induction labels as [|idx labels IH]; intros cids; cbn.
  - intros [= <-]. done.
  - destruct (_ <? _)%Z.
    + destruct (py_index chunk_ids idx); [|done].
      destruct (Indexer.collect_chunk_ids chunk_ids labels); [|done].
      intros [= <-]. cbn. specialize (IH _ eq_refl). lia.
    + intros H. specialize (IH _ H). lia.
Qed.

Lemma search_index_length w repo_id q k cids :
  Indexer.search_index w repo_id q k = Ok cids ->
  (0 < k)%Z /\ length cids <= Z.to_nat k.
Proof.
  unfold Indexer.search_index.
  destruct (index_files w !! repo_id) as [[ix|]|],
    (mapping_files w !! repo_id) as [[chunk_ids|]|]; try done.
  destruct (Indexer.index_search ix q k) as [labels|] eqn:E; [|done].
  apply index_search_labels in E as (Hk & _ & Hlen).
  intros H%collect_chunk_ids_length. split; [done|lia].
Qed.

Lemma omap_length_le {A B : Type} (f : A -> option B) (l : list A) :
  length (omap f l) <= length l.
Proof. induction l as [|x l IH]; cbn; [done|]. destruct (f x); cbn; lia. Qed.

(** ** The words of a text *)

Lemma rev_nonempty {A : Type} (a : A) (l : list A) : rev (a :: l) <> [].
Proof.
  intros Hnil. apply (f_equal length) in Hnil. rewrite length_rev in Hnil. done.
Qed.

Lemma run_word_stop cur c s t :
  isword c = false ->
  run_word cur (c :: s) t <-> cur <> [] /\ t = rev cur.
Proof.
  intros Ec. split.
  - intros (Hne & run & post & Hs & Hrun & _ & ->).
    destruct run as [|r run].
    + rewrite app_nil_r in *. split; [|done]. by intros ->.
    + injection Hs as <- _. cbn in Hrun. by rewrite Ec in Hrun.
  - intros [Hcur ->]. split.
    + destruct cur; [done|]. apply rev_nonempty.
    + exists [], (c :: s). split; [done|]. split; [done|].
      split; [by intros ? [= <-]|]. by rewrite app_nil_r.
Qed.

Lemma inner_word_stop c s t :
  isword c = false ->
  inner_word (c :: s) t <-> run_word [] s t \/ inner_word s t.
Proof.
  intros Ec. split.
  - intros (Hne & Ht & pre & post & c0 & Hs & Hl & Hc0 & Hpost).
    destruct pre as [|p pre]; [done|]. injection Hs as <- ->.
    destruct pre as [|p' pre].
    + left. split; [done|]. by exists t, post.
    + right. split; [done|]. split; [done|].
      exists (p' :: pre), post, c0. by rewrite last_cons_cons in Hl.
  - intros [(Hne & run & post & -> & Hrun & Hpost & ->)
           |(Hne & Ht & pre & post & c0 & -> & Hl & Hc0 & Hpost)].
    + split; [done|]. split; [done|]. by exists [c], post, c.
    + split; [done|]. split; [done|].
      exists (c :: pre), post, c0. split; [done|]. split; [|done].
      destruct pre; [done|]. by rewrite last_cons_cons.
Qed.

Lemma run_word_step cur c s t :
  isword c = true ->
  run_word cur (c :: s) t <-> run_word (c :: cur) s t.
Proof.
  intros Ec. split.
  - intros (Hne & run & post & Hs & Hrun & Hpost & ->).
    destruct run as [|r run].
    + cbn in Hs. subst post. specialize (Hpost c eq_refl). congruence.
    + injection Hs as <- ->. cbn in Hrun. rewrite Ec in Hrun.
      split; [done|]. exists run, post. split; [done|]. split; [done|].
      split; [done|]. cbn [rev]. by rewrite <- app_assoc.
  - intros (Hne & run & post & -> & Hrun & Hpost & ->).
    split; [done|]. exists (c :: run), post. split; [done|].
    split; [by cbn; rewrite Ec|]. split; [done|].
    cbn [rev]. by rewrite <- app_assoc.
Qed.

Lemma inner_word_step c s t :
  isword c = true ->
  inner_word (c :: s) t <-> inner_word s t.
Proof.
  intros Ec. split.
  - intros (Hne & Ht & pre & post & c0 & Hs & Hl & Hc0 & Hpost).
    destruct pre as [|p pre]; [done|]. injection Hs as <- ->.
    destruct pre as [|p' pre]; [cbn in Hl; congruence|].
    split; [done|]. split; [done|].
    exists (p' :: pre), post, c0. by rewrite last_cons_cons in Hl.
  - intros (Hne & Ht & pre & post & c0 & -> & Hl & Hc0 & Hpost).
    split; [done|]. split; [done|].
    exists (c :: pre), post, c0. split; [done|]. split; [|done].
    destruct pre; [done|]. by rewrite last_cons_cons.
Qed.

Lemma words_from_spec s : forall cur t,
  t ∈ Retriever.words_from cur s <-> run_word cur s t \/ inner_word s t.
Proof.
  induction s as [|c s IH]; intros cur t; cbn [Retriever.words_from].
  - assert (Hinner : ~ inner_word [] t).
    { intros (_ & _ & pre & post & c0 & Hs & Hl & _).
      symmetry in Hs. apply app_eq_nil in Hs as [-> _]. done. }
    assert (Hrun : run_word cur [] t <-> cur <> [] /\ t = rev cur).
    { split.
      - intros (Hne & run & post & Hs & _ & _ & ->).
        symmetry in Hs. apply app_eq_nil in Hs as [-> ->].
        rewrite app_nil_r in *. split; [|done]. by intros ->.
      - intros [Hcur ->]. split.
        + destruct cur; [congruence|apply rev_nonempty].
        + exists [], []. rewrite !app_nil_r. by repeat split. }
    destruct cur as [|a cur].
    + rewrite elem_of_nil, Hrun. tauto.
    + rewrite list_elem_of_singleton, Hrun. split; [intros ->; by left|].
      intros [[_ ->]|?]; tauto.
  - destruct (isword c) eqn:Ec.
    + rewrite IH, run_word_step, inner_word_step by done. done.
    + rewrite run_word_stop, inner_word_stop by done.
      destruct cur as [|a cur].
      * rewrite IH. intuition congruence.
      * rewrite elem_of_cons, IH. intuition congruence.
Qed.

Lemma word_set_spec text t :
  t ∈ Retriever.word_set text <-> word_of (lower text) t.
Proof.
  unfold Retriever.word_set, Retriever.findall_words.
  rewrite elem_of_list_to_set, words_from_spec. split.
  - intros [(Hne & run & post & -> & Hrun & Hpost & ->)
           |(Hne & Ht & pre & post & c0 & -> & Hl & Hc0 & Hpost)].
    + split; [done|]. split; [done|]. by exists [], post.
    + split; [done|]. split; [done|]. exists pre, post.
      split; [done|]. split; [|done]. intros c Hc. congruence.
  - intros (Hne & Ht & pre & post & -> & Hpre & Hpost).
    destruct (last pre) as [c0|] eqn:El.
    + right. split; [done|]. split; [done|]. exists pre, post, c0. auto.
    + apply last_None in El as ->. left. split; [done|]. by exists t, post.
Qed.

Lemma keyword_score_quotient query text :
  (Retriever.calculate_keyword_score query text ==
   if decide (Retriever.word_set query = ∅) then 0
   else inject_Z (Z.of_nat (size (Retriever.word_set query ∩ Retriever.word_set text)))
        / inject_Z (Z.of_nat (size (Retriever.word_set query))))%Q.
Proof.
  unfold Retriever.calculate_keyword_score. cbn zeta.
  case_decide as Hq; [reflexivity|].
  rewrite Qmake_Qdiv.
  assert (Hn : size (Retriever.word_set query) <> 0).
  { apply size_non_empty_iff. intros He. apply Hq. by apply leibniz_equiv. }
  replace (Z.pos (Pos.of_nat (size (Retriever.word_set query))))
    with (Z.of_nat (size (Retriever.word_set query))) by lia.
  reflexivity.
Qed.

(** C7.  Retrieval never returns more than [top_k] chunks.  The word set of
    a text holds exactly the words of the text in lower case: the non-empty
    runs of word characters that no word character precedes or follows.
    The re-ranking score of a chunk is the number of query words that occur
    among the words of the chunk, divided by the number of query words, and
    0 when the query has no word.  When re-ranking is enabled and more than
    [top_k] candidates were hydrated, the candidates are sorted by descending
    score, candidates of equal score keeping the order the search gave them,
    and the first [top_k] of the sorted list are returned, without the
    scratch score. *)
Theorem retrieve_reranks (create_query_embedding : str -> result (list Z))
    (w : world) (repo_id : string) (query : str) (top_k : Z) :
  (forall use_reranking chunks,
     Retriever.retrieve_relevant_chunks create_query_embedding w repo_id query
       top_k use_reranking = Ok chunks ->
     (Z.of_nat (length chunks) <= top_k)%Z) /\
  (forall text t, t ∈ Retriever.word_set text <-> word_of (lower text) t) /\
  (forall text,
     (Retriever.calculate_keyword_score query text ==
      if decide (Retriever.word_set query = ∅) then 0
      else inject_Z (Z.of_nat (size (Retriever.word_set query ∩ Retriever.word_set text)))
           / inject_Z (Z.of_nat (size (Retriever.word_set query))))%Q) /\
  (forall q chunk_ids,
     create_query_embedding query = Ok q ->
     Indexer.search_index w repo_id q (top_k * 2) = Ok chunk_ids ->
     let hydrated := omap (Db.get_chunk_by_id w) chunk_ids in
     (top_k < Z.of_nat (length hydrated))%Z ->
     exists ranked,
       ranked ≡ₚ hydrated /\
       StronglySorted
         (fun a b => (keyword_score query b <= keyword_score query a)%Q) ranked /\
       (forall v,
          List.filter (fun c => Qeq_bool (keyword_score query c) v) ranked
          = List.filter (fun c => Qeq_bool (keyword_score query c) v) hydrated) /\
       Retriever.retrieve_relevant_chunks create_query_embedding w repo_id query
         top_k true
       = Ok (Retriever.set_rerank_score None <$> take (Z.to_nat top_k) ranked)).
Proof.
  split; [|split; [apply word_set_spec|split]].
  - intros use_reranking chunks. unfold Retriever.retrieve_relevant_chunks.
    destruct (create_query_embedding query) as [q|]; [|done].
    destruct (Indexer.search_index _ _ _ _) as [chunk_ids|] eqn:Es; [|done].
    apply search_index_length in Es as [Hk Hlen].
    pose proof (omap_length_le (Db.get_chunk_by_id w) chunk_ids) as Hom.
    destruct use_reranking; cbn [andb].
    + destruct (Z.ltb_spec top_k (Z.of_nat (length (omap (Db.get_chunk_by_id w) chunk_ids)))).
      * intros [= <-]. unfold py_slice_to.
        destruct (Z.ltb_spec top_k 0); [lia|]. rewrite length_take. lia.
      * intros [= <-]. lia.
    + intros [= <-]. lia.
  - apply keyword_score_quotient.
  - intros q chunk_ids Hq Hs hydrated Hmore.
    exists (stable_sort (by_key_desc (keyword_score query)) hydrated).
    split; [apply stable_sort_Permutation|].
    split; [apply stable_sort_sorted|].
    split; [intros v; apply stable_sort_ties|].
    unfold Retriever.retrieve_relevant_chunks. rewrite Hq, Hs. cbn [andb].
    fold hydrated. destruct (Z.ltb_spec top_k (Z.of_nat (length hydrated))); [|lia].
    apply search_index_length in Hs as [Hk _].
    unfold py_slice_to. destruct (Z.ltb_spec top_k 0); [lia|].
    by rewrite rerank_chunks_eq, fmap_take.
Qed.

Lemma retrieve_reranks_witness :
  exists ranked,
    ranked ≡ₚ [chunk_a; chunk_b] /\
    StronglySorted
      (fun a b => (keyword_score (lit "retry policy") b
                   <= keyword_score (lit "retry policy") a)%Q) ranked /\
    (forall v,
       List.filter (fun c => Qeq_bool (keyword_score (lit "retry policy") c) v) ranked
       = List.filter (fun c => Qeq_bool (keyword_score (lit "retry policy") c) v)
           [chunk_a; chunk_b]) /\
    Retriever.retrieve_relevant_chunks origin_embedding ready_world "r"
      (lit "retry policy") 1 true
    = Ok (Retriever.set_rerank_score None <$> take (Z.to_nat 1) ranked).
Proof.
  apply (proj2 (proj2 (proj2 (retrieve_reranks origin_embedding ready_world "r"
                                (lit "retry policy") 1)))
           [0%Z] ["c1"; "c2"]%string).
  - reflexivity.
  - by vm_compute.
  - vm_compute. reflexivity.
Defined.

Lemma nearest_length ix q : length (Indexer.nearest ix q) = ntotal ix.
Proof.
  unfold Indexer.nearest, ntotal.
  by rewrite stable_sort_Permutation, length_imap.
Qed.

Lemma collect_chunk_ids_positions chunk_ids (ps : list nat) :
  Indexer.collect_chunk_ids chunk_ids (Z.of_nat <$> ps)
  = Ok (omap (fun p => chunk_ids !! p) ps).
Proof.
  induction ps as [|p ps IH]; [done|].
  rewrite fmap_cons. cbn [Indexer.collect_chunk_ids]. rewrite IH.
  change (omap (fun p0 => chunk_ids !! p0) (p :: ps))
    with (match chunk_ids !! p with
          | Some cid => cid :: omap (fun p0 => chunk_ids !! p0) ps
          | None => omap (fun p0 => chunk_ids !! p0) ps
          end).
  destruct (Z.ltb_spec (Z.of_nat p) (Z.of_nat (length chunk_ids))).
  - unfold py_index. destruct (Z.ltb_spec (Z.of_nat p) 0); [lia|].
    destruct (Z.leb_spec 0 (Z.of_nat p)); [|lia].
    destruct (Z.ltb_spec (Z.of_nat p) (Z.of_nat (length chunk_ids))); [|lia].
    cbn [andb]. rewrite Nat2Z.id.
    destruct (lookup_lt_is_Some_2 chunk_ids p) as [cid Hcid]; [lia|].
    by rewrite Hcid.
  - rewrite lookup_ge_None_2 by lia. done.
Qed.




Lemma nearest_positions ix q :
  Forall (fun hit => hit.1 < ntotal ix) (Indexer.nearest ix q).
Proof.
  apply Forall_forall. intros hit Hhit. unfold Indexer.nearest in Hhit.
  rewrite stable_sort_Permutation in Hhit.
  apply list_elem_of_lookup in Hhit as [i Hi].
  rewrite list_lookup_imap in Hi.
  destruct (xb ix !! i) as [v|] eqn:Ev; [|done].
  injection Hi as <-. cbn. by apply lookup_lt_Some in Ev.
Qed.

Lemma collect_chunk_ids_app chunk_ids l1 l2 cids1 cids2 :
  Indexer.collect_chunk_ids chunk_ids l1 = Ok cids1 ->
  Indexer.collect_chunk_ids chunk_ids l2 = Ok cids2 ->
  Indexer.collect_chunk_ids chunk_ids (l1 ++ l2) = Ok (cids1 ++ cids2).
Proof.
  intros H1 H2. revert cids1 H1.
  induction l1 as [|idx l1 IH]; intros cids1; cbn [app Indexer.collect_chunk_ids].
  - by intros [= <-].
  - destruct (_ <? _)%Z; [|by apply IH].
    destruct (py_index chunk_ids idx); [|done].
    destruct (Indexer.collect_chunk_ids chunk_ids l1) as [c1|]; [|done].
    intros [= <-]. by rewrite (IH c1 eq_refl).
Qed.

Lemma collect_chunk_ids_padding chunk_ids last_id m :
  last chunk_ids = Some last_id ->
  Indexer.collect_chunk_ids chunk_ids (replicate m (-1)%Z)
  = Ok (replicate m last_id).
Proof.
  intros Hlast. rewrite last_lookup in Hlast.
  pose proof (lookup_lt_Some _ _ _ Hlast) as Hlen.
  induction m as [|m IH]; [done|].
  cbn [replicate Indexer.collect_chunk_ids]. rewrite IH.
  destruct (Z.ltb_spec (-1) (Z.of_nat (length chunk_ids))); [|lia].
  unfold py_index. cbn [Z.ltb Z.compare].
  destruct (Z.leb_spec 0 (-1 + Z.of_nat (length chunk_ids))); [|lia].
  destruct (Z.ltb_spec (-1 + Z.of_nat (length chunk_ids)) (Z.of_nat (length chunk_ids)));
    [|lia].
  cbn [andb].
  replace (Z.to_nat (-1 + Z.of_nat (length chunk_ids))) with (pred (length chunk_ids))
    by lia.
  by rewrite Hlast.
Qed.

(** What the missed case does in general: on an aligned index of [n >= 1]
    vectors, a search for [k > n] neighbours returns [k] ids, the last
    [k - n] of which repeat the last id of the mapping. *)
Lemma search_index_pads_with_last (w : world) (repo_id : string)
    (ix : faiss_index) (chunk_ids : list string) (last_id : string)
    (q : list Z) (k : Z) :
  index_files w !! repo_id = Some (Intact ix) ->
  mapping_files w !! repo_id = Some (Intact chunk_ids) ->
  length chunk_ids = ntotal ix ->
  last chunk_ids = Some last_id ->
  length q = dimension ix ->
  (Z.of_nat (ntotal ix) < k)%Z ->
  exists cids,
    Indexer.search_index w repo_id q k = Ok cids /\
    length cids = Z.to_nat k /\
    drop (ntotal ix) cids = replicate (Z.to_nat k - ntotal ix) last_id.
Proof.
  intros Hix Hmap Halign Hlast Hq Hk.
  unfold Indexer.search_index, Indexer.index_search.
  rewrite Hix, Hmap, Hq, Nat.eqb_refl. cbn [negb].
  destruct (Z.ltb_spec 0 k); [|lia]. cbn [negb].
  rewrite take_ge by (rewrite nearest_length; lia).
  rewrite nearest_length.
  pose proof (nearest_positions ix q) as Hpos.
  pose proof (nearest_length ix q) as Hlen.
  revert Hpos Hlen. generalize (Indexer.nearest ix q). intros hits Hpos Hlen.
  replace ((fun h : nat * Z => Z.of_nat h.1) <$> hits)
    with (Z.of_nat <$> (fst <$> hits)) by (by rewrite <- list_fmap_compose).
  assert (Hhits : omap (fun p => chunk_ids !! p) (fst <$> hits)
                  = omap (fun hit => chunk_ids !! hit.1) hits).
  { clear. induction hits as [|h hits IH]; [done|]. cbn. by rewrite IH. }
  assert (Hfull : length (omap (fun hit : nat * Z => chunk_ids !! hit.1) hits)
                  = ntotal ix).
  { rewrite <- Hlen. clear Hlen Hhits. induction Hpos as [|h hits Hh Hpos IH]; [done|].
    cbn. destruct (lookup_lt_is_Some_2 chunk_ids h.1) as [cid ->]; [lia|].
    cbn. by rewrite IH. }
  eexists. split.
  - apply collect_chunk_ids_app.
    + rewrite collect_chunk_ids_positions, Hhits. reflexivity.
    + by apply collect_chunk_ids_padding.
  - split.
    + rewrite length_app, length_replicate, Hfull. lia.
    + by rewrite drop_app_length'.
Qed.

(** C3 at the failing input.  The index of the sample repository holds three
    vectors; a search for five neighbours returns five ids: the three stored
    ones, nearest first, and then the last id of the mapping twice more, once
    for each label [-1] that pads the library's answer. *)
Lemma search_index_overfetch_repeats_last :
  Indexer.search_index ready_world "r" [0%Z] 5
  = Ok ["c1"; "c2"; "c3"; "c3"; "c3"]%string.
Proof. by vm_compute. Qed.

(** ** The chunker: further properties *)

Lemma chunk_loop_fields uuid4 sha256_hex fp lang lines fuel i drawn c :
  c ∈ Parser.chunk_loop uuid4 sha256_hex fuel fp lang lines i drawn ->
  file_path c = fp /\ language c = lang /\
  content_hash c = sha256_hex (content c) /\
  embedding c = None /\ rerank_score c = None.
Proof.
  revert i drawn. induction fuel as [|fuel IH]; intros i drawn;
    cbn [Parser.chunk_loop].
  - by intros ?%elem_of_nil.
  - destruct (i <? length lines); [|by intros ?%elem_of_nil].
    destruct (_ <? 10); [by apply IH|].
    intros [->|Hc]%elem_of_cons; [done|by eapply IH].
Qed.

(** X1.  Every chunk of a file is one window of its lines: it starts on line
    [45 k + 1] for some [k], ends on line [min (45 k + 50, n)], holds at most
    50 lines, and its content is the lines [start_line .. end_line] of the
    file joined by line feeds; it carries the path and the language it was
    given and the digest of its own content. *)
Theorem chunk_content_windows (uuid4 : nat -> string)
    (sha256_hex : str -> string) (text : str) (fp lang : string) :
  Forall
    (fun c =>
       (exists k, start_line c = 45 * k + 1 /\
          end_line c = Nat.min (45 * k + 50) (length (splitlines text))) /\
       end_line c - start_line c < 50 /\
       content c = join [LF] (drop (start_line c - 1)
                                (take (end_line c) (splitlines text))) /\
       file_path c = fp /\ language c = lang /\
       content_hash c = sha256_hex (content c))
    (Parser.chunk_content uuid4 sha256_hex text fp lang).
Proof.
  unfold Parser.chunk_content. destruct (splitlines text) as [|l ls] eqn:E;
    [constructor|].
  apply Forall_forall. intros c Hc.
  destruct (chunk_loop_fields _ _ _ _ _ _ _ _ _ Hc) as (Hfp & Hlang & Hhash & _).
  apply chunk_loop_sound in Hc as (k & Hj & _ & Hs & He & Hcont).
  cbn zeta in *. change (Parser.chunk_size_lines - Parser.overlap_lines) with 45 in *.
  rewrite Nat.add_0_l in *.
  pose proof (window_end_bounds (l :: ls) (k * 45) Hj) as Hb.
  assert (Hend : Parser.window_end (l :: ls) (k * 45)
                 = Nat.min (45 * k + 50) (length (l :: ls))).
  { unfold Parser.window_end, Parser.chunk_size_lines. f_equal. lia. }
  split; [exists k; split; [lia|congruence]|].
  split; [rewrite Hs, He, Hend; lia|].
  split; [|done].
  rewrite Hcont, Hs, He. unfold Parser.window_text.
  rewrite take_drop_commute. do 3 f_equal; lia.
Qed.

Lemma chunk_loop_ids uuid4 sha256_hex fp lang lines fuel i drawn :
  chunk_id <$> Parser.chunk_loop uuid4 sha256_hex fuel fp lang lines i drawn
  = uuid4 <$> seq drawn
      (length (Parser.chunk_loop uuid4 sha256_hex fuel fp lang lines i drawn)).
Proof.
  revert i drawn. induction fuel as [|fuel IH]; intros i drawn;
    cbn [Parser.chunk_loop]; [done|].
  destruct (i <? length lines); [|done].
  destruct (_ <? 10); [by apply IH|].
  cbn [length seq]. rewrite !fmap_cons. f_equal. apply IH.
Qed.

Lemma parse_files_ids e files drawn :
  chunk_id <$> Repos.parse_files e files drawn
  = Repos.uuid4 e <$> seq drawn (length (Repos.parse_files e files drawn)).
Proof.
  revert drawn. induction files as [|f files IH]; intros drawn;
    cbn [Repos.parse_files]; [done|].
  destruct (strip (Repos.text f)) as [|a0 t0]; [by apply IH|].
  rewrite fmap_app, length_app, seq_app, fmap_app, IH. f_equal.
  unfold Parser.chunk_content. destruct (splitlines _) as [|ln lns]; [done|].
  rewrite chunk_loop_ids.
  generalize (length (Parser.chunk_loop (fun k => Repos.uuid4 e (drawn + k))
    (Repos.sha256_hex e) (length (ln :: lns)) (Repos.rel_path f)
    (Repos.detect_language (Repos.suffix f)) (ln :: lns) 0 0)).
  intros n. replace (seq drawn n) with (seq (drawn + 0) n) by (f_equal; lia).
  rewrite <- (fmap_add_seq drawn 0 n), <- list_fmap_compose. done.
Qed.

(** X2.  Each chunk of a parse receives a draw of its own: when the draws of
    chunk ids are pairwise distinct, the chunks of all the files of a
    repository have pairwise distinct ids. *)
Theorem parse_files_distinct_ids (e : Repos.env) :
  Inj (=) (=) (Repos.uuid4 e) ->
  NoDup (chunk_id <$> Repos.parse_files e (Repos.repo_files e) 0).
Proof.
  intros Hinj. rewrite parse_files_ids. apply NoDup_fmap_2; [done|].
  apply NoDup_seq.
Qed.

Lemma parse_files_distinct_ids_witness :
  NoDup (chunk_id <$> Repos.parse_files numbered_env (Repos.repo_files numbered_env) 0).
Proof.
  apply (parse_files_distinct_ids numbered_env).
  intros x y H. cbn in H. by apply (inj pretty) in H.
Defined.

Lemma join_cons sep p ps :
  ps <> [] -> join sep (p :: ps) = p ++ sep ++ join sep ps.
Proof. by destruct ps. Qed.

Lemma splitlines_from_nonempty cur s :
  lf_only s -> s <> [] \/ cur <> [] -> splitlines_from false cur s <> [].
Proof.
  intros Hlf. revert cur. induction Hlf as [|c s Hc Hlf IH]; intros cur Hne.
  - destruct Hne as [|Hne]; [done|]. cbn. by destruct cur.
  - cbn [splitlines_from andb]. destruct (is_linebreak c); [done|].
    apply IH. by right.
Qed.

(** Splitting into lines and joining again gives the text back when its only
    line boundaries are line feeds and it does not end with one. *)
Lemma join_splitlines_from cur s :
  lf_only s -> last s <> Some LF ->
  join [LF] (splitlines_from false cur s) = rev cur ++ s.
Proof.
  intros Hlf. revert cur. induction Hlf as [|c s Hc Hlf IH]; intros cur Hlast.
  - cbn. destruct cur as [|a cur]; [done|]. by rewrite app_nil_r.
  - assert (Hlast' : last s <> Some LF).
    { destruct s as [|c' s]; [done|]. by rewrite last_cons_cons in Hlast. }
    cbn [splitlines_from andb]. destruct (is_linebreak c) eqn:Eb.
    + rewrite (Hc eq_refl) in *. change (code LF =? 13) with false.
      assert (Hs : s <> []) by (intros ->; by apply Hlast).
      rewrite join_cons by (apply splitlines_from_nonempty; auto).
      by rewrite (IH [] Hlast').
    + rewrite (IH (c :: cur) Hlast'). cbn [rev]. by rewrite <- app_assoc.
Qed.

Lemma lstrip_blank s : blank s -> lstrip s = [].
Proof. induction 1 as [|c s Hc _ IH]; [done|]. cbn. by rewrite Hc. Qed.

Lemma strip_blank s : blank s -> strip s = [].
Proof. intros H. unfold strip. by rewrite (lstrip_blank s H). Qed.

Lemma lstrip_nil_inv s : lstrip s = [] -> blank s.
Proof.
  induction s as [|c s IH]; [constructor|]. cbn.
  destruct (isspace c) eqn:Ec; [|done]. intros H. constructor; [done|by apply IH].
Qed.

Lemma lstrip_blank_inv s : blank (lstrip s) -> blank s.
Proof.
  induction s as [|c s IH]; [done|]. cbn.
  destruct (isspace c) eqn:Ec; [|done]. intros H. constructor; [done|by apply IH].
Qed.

Lemma strip_nil_inv s : strip s = [] -> blank s.
Proof.
  unfold strip. intros H. apply lstrip_blank_inv.
  apply (f_equal (@rev ascii)) in H. rewrite rev_involutive in H. cbn in H.
  apply lstrip_nil_inv in H. unfold blank in *.
  rewrite Forall_forall in *. intros c Hc. apply H.
  apply list_elem_of_In, in_rev. rewrite rev_involutive. by apply list_elem_of_In.
Qed.

Lemma splitlines_from_chars b cur s l c :
  l ∈ splitlines_from b cur s -> c ∈ l -> c ∈ cur \/ c ∈ s.
Proof.
  revert b cur. induction s as [|a s IH]; intros b cur; cbn [splitlines_from].
  - destruct cur as [|x cur]; [by intros ?%elem_of_nil|].
    intros ->%list_elem_of_singleton Hc. left.
    apply list_elem_of_In, in_rev in Hc. by apply list_elem_of_In.
  - destruct (b && (code a =? 10)).
    + intros Hl Hc. destruct (IH _ _ Hl Hc); [by left|].
      right. by apply list_elem_of_further.
    + destruct (is_linebreak a).
      * intros [->|Hl]%elem_of_cons Hc.
        -- left. apply list_elem_of_In, in_rev in Hc. by apply list_elem_of_In.
        -- destruct (IH _ _ Hl Hc) as [?%elem_of_nil|]; [done|].
           right. by apply list_elem_of_further.
      * intros Hl Hc. destruct (IH _ _ Hl Hc) as [[->|]%elem_of_cons|].
        -- right. apply list_elem_of_here.
        -- by left.
        -- right. by apply list_elem_of_further.
Qed.

Lemma join_blank (parts : list str) : Forall blank parts -> blank (join [LF] parts).
Proof.
  induction 1 as [|p ps Hp Hps IH]; [constructor|].
  destruct ps as [|q ps]; [done|]. rewrite join_cons by done.
  apply Forall_app. split; [done|]. apply Forall_app. split; [|done].
  by repeat constructor.
Qed.

Lemma chunk_loop_all_skipped uuid4 sha256_hex fp lang lines fuel i drawn :
  (forall j, skipped lines j) ->
  Parser.chunk_loop uuid4 sha256_hex fuel fp lang lines i drawn = [].
Proof.
  intros Hskip. revert i drawn. induction fuel as [|fuel IH]; intros i drawn;
    cbn [Parser.chunk_loop]; [done|].
  destruct (i <? length lines); [|done].
  specialize (Hskip i). unfold skipped in Hskip.
  destruct (Nat.ltb_spec (length (strip (Parser.window_text lines i))) 10); [|lia].
  apply IH.
Qed.

(** X3.  A file whose text is empty or consists of whitespace only yields no
    chunk. *)
Theorem chunk_content_blank (uuid4 : nat -> string)
    (sha256_hex : str -> string) (text : str) (fp lang : string) :
  strip text = [] ->
  Parser.chunk_content uuid4 sha256_hex text fp lang = [].
Proof.
  intros Hblank%strip_nil_inv. unfold Parser.chunk_content.
  destruct (splitlines text) as [|l ls] eqn:E; [done|].
  apply chunk_loop_all_skipped. intros j. unfold skipped.
  rewrite strip_blank; [cbn; lia|].
  unfold Parser.window_text. change (lit "
") with [LF]. apply join_blank, Forall_forall.
  intros p Hp. apply Forall_forall. intros c Hc.
  assert (Hin : p ∈ splitlines text).
  { rewrite E. apply elem_of_take in Hp as (i & Hi & _).
    rewrite lookup_drop in Hi. by apply list_elem_of_lookup_2 in Hi. }
  destruct (splitlines_from_chars _ _ _ _ _ Hin Hc) as [?%elem_of_nil|Ht]; [done|].
  unfold blank in Hblank. rewrite Forall_forall in Hblank. auto.
Qed.

Lemma chunk_content_blank_witness :
  Parser.chunk_content (fun _ => "id"%string) (fun _ => "hash"%string)
    (lit "  
   ") "notes.txt" "text" = [].
Proof.
  apply (chunk_content_blank (fun _ => "id"%string) (fun _ => "hash"%string)).
  reflexivity.
Defined.

(** X4.  A text of at most 45 lines whose only line boundaries are line
    feeds, that does not end with a line feed and whose trimmed length is at
    least 10, is kept whole: it yields one chunk, with the first id drawn,
    the lines 1 to the last, and the text itself as content. *)
Theorem chunk_content_whole (uuid4 : nat -> string)
    (sha256_hex : str -> string) (text : str) (fp lang : string) :
  lf_only text -> last text <> Some LF ->
  length (splitlines text) <= 45 -> 10 <= length (strip text) ->
  Parser.chunk_content uuid4 sha256_hex text fp lang =
    [ {| chunk_id := uuid4 0; file_path := fp; language := lang;
         start_line := 1; end_line := length (splitlines text);
         content := text; content_hash := sha256_hex text;
         embedding := None; rerank_score := None |} ].
Proof.
  intros Hlf Hlast Hn Hlen.
  pose proof (join_splitlines_from [] text Hlf Hlast) as Hjoin. cbn [rev app] in Hjoin.
  fold (splitlines text) in Hjoin.
  unfold Parser.chunk_content.
  destruct (splitlines text) as [|l ls] eqn:E.
  { cbn in Hjoin. subst text. cbn in Hlen. lia. }
  set (lines := l :: ls) in *.
  assert (Hw : Parser.window_text lines 0 = text).
  { unfold Parser.window_text, Parser.window_end, Parser.chunk_size_lines.
    rewrite drop_0, Nat.sub_0_r, take_ge by lia. exact Hjoin. }
  assert (Hend : Parser.window_end lines 0 = length lines).
  { unfold Parser.window_end, Parser.chunk_size_lines. lia. }
  change (length lines) with (S (length ls)) at 1. cbn [Parser.chunk_loop].
  change (0 <? length lines) with true. cbn iota. rewrite Hw, Hend.
  destruct (Nat.ltb_spec (length (strip text)) 10); [lia|].
  f_equal. destruct (length ls) as [|m] eqn:Em; [done|].
  cbn [Parser.chunk_loop].
  destruct (Nat.ltb_spec (0 + (Parser.chunk_size_lines - Parser.overlap_lines))
              (length lines)) as [Hlt|]; [|done].
  exfalso. change (Parser.chunk_size_lines - Parser.overlap_lines) with 45 in Hlt. lia.
Qed.

Lemma chunk_content_whole_witness :
  let text := lit "def renew(token):
    return refresh(token)" in
  Parser.chunk_content (fun k => pretty k) (fun _ => "hash"%string)
    text "src/new.py" "python"
  = [ {| chunk_id := pretty 0; file_path := "src/new.py"; language := "python";
         start_line := 1; end_line := length (splitlines text);
         content := text;
         content_hash := "hash"; embedding := None; rerank_score := None |} ].
Proof.
  cbn zeta.
  apply (chunk_content_whole (fun k => pretty k) (fun _ => "hash"%string)).
  - unfold lf_only. apply Forall_forall. intros c Hc Hb.
    apply list_elem_of_In in Hc. vm_compute in Hc.
    repeat (destruct Hc as [<-|Hc]; [try discriminate Hb; reflexivity|]).
    destruct Hc.
  - vm_compute. discriminate.
  - vm_compute. lia.
  - vm_compute. lia.
Defined.

(** ** Citations and confidence: further properties *)

Lemma Forall2_elem_of_l {A B : Type} (P : A -> B -> Prop) l k x :
  Forall2 P l k -> x ∈ l -> exists y, y ∈ k /\ P x y.
Proof.
  induction 1 as [|a b l k Hab _ IH]; [by intros ?%elem_of_nil|].
  intros [->|Hx]%elem_of_cons.
  - exists b. split; [apply list_elem_of_here|done].
  - destruct (IH Hx) as (y & Hy & Hxy). exists y.
    split; [by apply list_elem_of_further|done].
Qed.

(** A source that the answer refers to and that is in bounds is cited. *)
Lemma cited_source_has_citation answer chunks i c :
  cites_source answer (N.of_nat (S i)) -> chunks !! i = Some c ->
  exists cit, cit ∈ Generator.extract_citations answer chunks /\ cites_chunk c cit.
Proof.
  intros Hcites Hc.
  assert (Hin : N.of_nat (S i)
                ∈ filter (in_bounds chunks) (Generator.sorted_sources answer)).
  { apply list_elem_of_filter. split; [|by apply sorted_sources_spec].
    apply lookup_lt_Some in Hc. unfold in_bounds. lia. }
  destruct (Forall2_elem_of_l _ _ _ _
              (cite_sources_spec chunks (Generator.sorted_sources answer)) Hin)
    as (cit & Hcit & c' & Hc' & Hcc).
  replace (N.to_nat (N.of_nat (S i) - 1)) with i in Hc' by lia.
  exists cit. split; [done|]. congruence.
Qed.

(** X5.  The citations of an answer depend only on the set of sources it
    refers to: two answers that refer to the same sources, in whatever order
    and however often, have the same citations. *)
Theorem extract_citations_same_sources (answer1 answer2 : str)
    (chunks : list chunk) :
  (forall n, cites_source answer1 n <-> cites_source answer2 n) ->
  Generator.extract_citations answer1 chunks
  = Generator.extract_citations answer2 chunks.
Proof.
  intros Hsame. unfold Generator.extract_citations, Generator.sorted_sources.
  replace (Generator.unique_sources answer2) with (Generator.unique_sources answer1);
    [done|].
  apply set_eq. intros n. by rewrite !unique_sources_spec.
Qed.

Lemma extract_citations_same_sources_witness :
  Generator.extract_citations repeating_answer [chunk_a; chunk_b]
  = Generator.extract_citations plain_answer [chunk_a; chunk_b].
Proof.
  apply (extract_citations_same_sources repeating_answer plain_answer).
  intros n. rewrite <- !unique_sources_spec.
  replace (Generator.unique_sources repeating_answer)
    with (Generator.unique_sources plain_answer); [done|].
  by vm_compute.
Defined.

Lemma strict_sorted_bounded_length (l : list N) (lo hi : N) :
  StronglySorted N.lt l -> Forall (fun x => (lo <= x < hi)%N) l ->
  (N.of_nat (length l) <= hi - lo)%N.
Proof.
  intros Hs. revert lo. induction Hs as [|x l Hl IH Hx]; intros lo Hb.
  - cbn. lia.
  - apply Forall_cons in Hb as [Hxb Hb].
    assert (Hb' : Forall (fun y => (x + 1 <= y < hi)%N) l).
    { rewrite Forall_forall in *. intros y Hy.
      specialize (Hx y Hy). specialize (Hb y Hy). cbn in *. lia. }
    specialize (IH _ Hb'). cbn [length]. lia.
Qed.

(** X6.  There are never more citations than retrieved chunks, and without
    retrieved chunks an answer has no citation and its confidence is
    [low]. *)
Theorem extract_citations_bounded (answer : str) (chunks : list chunk) :
  length (Generator.extract_citations answer chunks) <= length chunks /\
  Generator.extract_citations answer [] = [] /\
  Generator.calculate_confidence answer
    (Generator.extract_citations answer []) [] = Generator.low.
Proof.
  assert (Hlen : forall cs,
             length (Generator.extract_citations answer cs) <= length cs).
  { intros cs.
    pose proof (cite_sources_spec cs (Generator.sorted_sources answer)) as Hf.
    apply Forall2_length in Hf. unfold Generator.extract_citations. rewrite <- Hf.
    pose proof (strict_sorted_bounded_length
                  (filter (in_bounds cs) (Generator.sorted_sources answer))
                  1 (N.of_nat (length cs) + 1)) as Hb.
    assert ((N.of_nat (length (filter (in_bounds cs)
               (Generator.sorted_sources answer)))
             <= N.of_nat (length cs) + 1 - 1)%N); [|lia].
    apply Hb.
    - apply strict_sorted_filter, sorted_sources_sorted.
    - apply Forall_forall. intros n [Hn _]%list_elem_of_filter.
      unfold in_bounds in Hn. lia. }
  split; [apply Hlen|].
  assert (Hnil : Generator.extract_citations answer [] = []).
  { specialize (Hlen []). cbn in Hlen.
    destruct (Generator.extract_citations answer []); [done|cbn in Hlen; lia]. }
  by rewrite Hnil.
Qed.

Lemma uncertain_iff answer :
  existsb (fun p => contains p (lower answer)) Generator.uncertainty_phrases = true
  <-> uncertain answer.
Proof.
  split; [|apply uncertain_detected].
  intros (p & Hp & Hc)%existsb_exists. exists p.
  split; [by apply list_elem_of_In|by apply contains_spec].
Qed.

(** X7.  The confidence is [high] exactly when the answer has at least two
    citations and at least 50 characters and contains no uncertainty phrase;
    it is [medium] exactly when the answer has one citation and at least 50
    characters, and has more than 100 words or contains no uncertainty
    phrase. *)
Theorem calculate_confidence_levels (answer : str)
    (citations : list Generator.citation) (chunks : list chunk) :
  (Generator.calculate_confidence answer citations chunks = Generator.high <->
   2 <= length citations /\ 50 <= length answer /\ ~ uncertain answer) /\
  (Generator.calculate_confidence answer citations chunks = Generator.medium <->
   length citations = 1 /\ 50 <= length answer /\
   (100 < length (split answer) \/ ~ uncertain answer)).
Proof.
  unfold Generator.calculate_confidence.
  destruct citations as [|cit citations];
    [split; split; (done || cbn; intros; lia)|].
  destruct (Nat.ltb_spec (length answer) 50);
    [split; split; (done || intros; lia)|].
  pose proof (uncertain_iff answer) as Hu.
  destruct (existsb _ _) eqn:Ee.
  - assert (uncertain answer) by (by apply Hu).
    destruct (Nat.ltb_spec 100 (length (split answer))),
             (Nat.ltb_spec (length (cit :: citations)) 2); cbn [andb].
    + split; split; try done; try (intros; lia).
      intros _. destruct citations; cbn in *; [|lia].
      split; [done|]. split; [done|]. by left.
    + split; split; try done; try (intros; lia). intros (_ & _ & []); done.
    + split; split; try done; try (intros; lia). intros (_ & _ & []); [lia|done].
    + split; split; try done; try (intros; lia). intros (_ & _ & []); done.
  - assert (~ uncertain answer) by (intros Hx; apply Hu in Hx; done).
    destruct (Nat.ltb_spec 100 (length (split answer))),
             (Nat.ltb_spec (length (cit :: citations)) 2); cbn [andb].
    + split; split; try done; try (intros; lia).
      intros _. destruct citations; cbn in *; [|lia].
      split; [done|]. split; [done|]. by left.
    + destruct (Nat.leb_spec 2 (length (cit :: citations))); [|lia].
      split; split; try done; try (intros; lia).
    + destruct (Nat.leb_spec 2 (length (cit :: citations))); [lia|].
      destruct citations; cbn in *; [|lia].
      split; split; try done; try (intros; lia).
      intros _. split; [done|]. split; [done|]. by right.
    + destruct (Nat.leb_spec 2 (length (cit :: citations))); [|lia].
      split; split; try done; try (intros; lia).
Qed.

(** ** The fallback answer: proofs *)

Lemma occurs_app p s pre post : occurs p s -> occurs p (pre ++ s ++ post).
Proof.
  intros (a & b & ->). exists (pre ++ a), (b ++ post).
  by rewrite <- !app_assoc.
Qed.

Lemma occurs_trans a b c : occurs a b -> occurs b c -> occurs a c.
Proof.
  intros (p1 & q1 & ->) (p2 & q2 & ->). exists (p2 ++ p1), (q1 ++ q2).
  by rewrite <- !app_assoc.
Qed.

Lemma occurs_concat (l : list str) i x : l !! i = Some x -> occurs x (concat l).
Proof.
  intros Hl. apply list_elem_of_lookup_2, list_elem_of_split in Hl as (l1 & l2 & ->).
  exists (concat l1), (concat l2). by rewrite concat_app.
Qed.

Lemma digits_of_uint_digits u : forallb isdigit (Answer.digits_of_uint u) = true.
Proof. induction u; cbn [Answer.digits_of_uint forallb]; try done; by rewrite IHu. Qed.

Lemma int_of_digits_uint u acc :
  fold_left (fun a c => (10 * a + N.of_nat (code c - 48))%N)
    (Answer.digits_of_uint u) (N.of_nat acc)
  = N.of_nat (Nat.of_uint_acc u acc).
Proof.
  revert acc. induction u; intros acc;
    cbn [Answer.digits_of_uint fold_left Nat.of_uint_acc]; [done|..];
    rewrite <- IHu; f_equal; rewrite Nat.tail_mul_spec;
    match goal with
    | |- context [code ?c - 48] =>
        let v := eval vm_compute in (code c - 48) in
        change (code c - 48) with v
    end; lia.
Qed.

Lemma int_of_str_of_nat n :
  Generator.int_of_digits (Answer.str_of_nat n) = N.of_nat n.
Proof.
  unfold Generator.int_of_digits, Answer.str_of_nat.
  change 0%N with (N.of_nat 0). rewrite int_of_digits_uint.
  f_equal. apply DecimalNat.Unsigned.of_to.
Qed.

Lemma str_of_nat_nonempty n : Answer.str_of_nat n <> [].
Proof.
  intros H. pose proof (int_of_str_of_nat n) as Hn. rewrite H in Hn. cbn in Hn.
  destruct n; [|lia]. done.
Qed.

(** X8.  The fallback answer feeds the citations: each of the chunks it
    shows, the first [max_chunks] of the retrieved ones, has its citation
    among those extracted from the fallback answer. *)
Theorem fallback_answer_cites_excerpts (warning_sign : str)
    (chunks : list chunk) (max_chunks : Z) (i : nat) (c : chunk) :
  chunks !! i = Some c -> (Z.of_nat i < max_chunks)%Z ->
  exists cit,
    cit ∈ Generator.extract_citations
            (Answer.build_local_fallback_answer warning_sign chunks max_chunks)
            chunks /\
    cites_chunk c cit.
Proof.
  intros Hc Hi. apply (cited_source_has_citation _ _ i c); [|done].
  exists (Answer.str_of_nat (S i)).
  split; [apply str_of_nat_nonempty|]. split; [apply digits_of_uint_digits|].
  split; [apply int_of_str_of_nat|].
  unfold Answer.build_local_fallback_answer.
  destruct chunks as [|c0 chunks']; [done|]. set (chunks := c0 :: chunks') in *.
  assert (Hshown : py_slice_to chunks max_chunks !! i = Some c).
  { unfold py_slice_to. destruct (Z.ltb_spec max_chunks 0); [lia|].
    rewrite lookup_take_lt by lia. done. }
  rewrite !app_assoc, <- (app_assoc _ (concat _)). apply occurs_app.
  eapply occurs_trans;
    [|eapply (occurs_concat _ i); rewrite list_lookup_imap, Hshown; reflexivity].
  unfold Answer.fallback_block, marker.
  exists (lit "### `" ++ lit (file_path c) ++ lit "` (lines "
          ++ Answer.str_of_nat (start_line c) ++ lit "-"
          ++ Answer.str_of_nat (end_line c) ++ lit ") "),
         ([LF] ++ lit "```" ++ lit (language c) ++ [LF]
          ++ take 500 (content c) ++ [LF] ++ lit "```" ++ [LF; LF]).
  rewrite <- !app_assoc. reflexivity.
Qed.

Lemma fallback_answer_cites_excerpts_witness :
  exists cit,
    cit ∈ Generator.extract_citations
            (Answer.build_local_fallback_answer (lit "!") [chunk_a; chunk_b] 3)
            [chunk_a; chunk_b] /\
    cites_chunk chunk_b cit.
Proof.
  apply (fallback_answer_cites_excerpts (lit "!") [chunk_a; chunk_b] 3 1 chunk_b).
  - reflexivity.
  - lia.
Defined.

(** ** The index build: further properties *)

Lemma embeddings_of_spec chunks embs :
  Indexer.embeddings_of chunks = Ok embs -> Some <$> embs = embedding <$> chunks.
Proof.
  revert embs. induction chunks as [|c chunks IH]; intros embs; cbn.
  - by intros [= <-].
  - destruct (embedding c) as [v|] eqn:Ev; [|done].
    destruct (Indexer.embeddings_of chunks) as [vs|]; [|done].
    intros [= <-]. cbn. rewrite (IH vs eq_refl). by rewrite ?Ev.
Qed.

Lemma embeddings_of_missing chunks c :
  c ∈ chunks -> embedding c = None ->
  Indexer.embeddings_of chunks = Raise (KeyError "embedding").
Proof.
  intros Hc Hnone. induction chunks as [|c' chunks IH]; [by apply elem_of_nil in Hc|].
  cbn. destruct (embedding c') as [v|] eqn:Ev; [|done].
  apply elem_of_cons in Hc as [->|Hc]; [congruence|]. by rewrite (IH Hc).
Qed.

Lemma matrix_dimension_spec rows dim :
  Indexer.matrix_dimension rows = Ok dim ->
  rows <> [] /\ Forall (fun v => length v = dim) rows.
Proof.
  unfold Indexer.matrix_dimension. destruct rows as [|r rows]; [done|].
  destruct (forallb _ rows) eqn:Ef; [|done]. intros [= <-]. split; [done|].
  constructor; [done|]. apply Forall_forall. intros v Hv.
  rewrite forallb_forall in Ef. apply Nat.eqb_eq, Ef. by apply list_elem_of_In.
Qed.

Lemma matrix_dimension_ragged rows v1 v2 :
  v1 ∈ rows -> v2 ∈ rows -> length v1 <> length v2 ->
  Indexer.matrix_dimension rows = Raise (ValueError "inhomogeneous shape").
Proof.
  intros H1 H2 Hne. unfold Indexer.matrix_dimension.
  destruct rows as [|r rows]; [by apply elem_of_nil in H1|].
  destruct (forallb _ rows) eqn:Ef; [exfalso|done].
  rewrite forallb_forall in Ef.
  assert (Hall : forall v, v ∈ r :: rows -> length v = length r).
  { intros v [->|Hv]%elem_of_cons; [done|].
    apply Nat.eqb_eq, Ef. by apply list_elem_of_In. }
  rewrite (Hall _ H1), (Hall _ H2) in Hne. done.
Qed.

(** X9.  A successful index build leaves the index and the mapping of the
    repository aligned: the mapping lists the chunk ids in the order of the
    chunks, the index holds their vectors in the same order, so both have as
    many entries as there are chunks, and every stored vector has the
    dimension of the index. *)
Theorem build_faiss_index_aligned
    (write_index_error write_mapping_error : option write_failure)
    (repo_id : string) (chunks : list chunk) (w w' : world) :
  Indexer.build_faiss_index write_index_error write_mapping_error repo_id chunks w
  = (Ok tt, w') ->
  exists ix chunk_ids,
    index_files w' !! repo_id = Some (Intact ix) /\
    mapping_files w' !! repo_id = Some (Intact chunk_ids) /\
    chunk_ids = chunk_id <$> chunks /\
    Some <$> xb ix = embedding <$> chunks /\
    ntotal ix = length chunk_ids /\ 0 < ntotal ix /\
    Forall (fun v => length v = dimension ix) (xb ix).
Proof.
  unfold Indexer.build_faiss_index. destruct chunks as [|c chunks]; [done|].
  destruct (Indexer.embeddings_of _) as [embs|] eqn:Ee; [|done].
  destruct (Indexer.matrix_dimension _) as [dim|] eqn:Ed; [|done].
  destruct write_index_error as [[]|]; [done..|].
  destruct write_mapping_error as [[]|]; [done..|].
  intros [= <-]. cbn [index_files mapping_files].
  apply embeddings_of_spec in Ee. apply matrix_dimension_spec in Ed as [_ Hdim].
  exists {| dimension := dim; xb := embs |}, (chunk_id <$> c :: chunks).
  rewrite !lookup_insert_eq.
  split; [done|]. split; [done|]. split; [done|]. cbn [xb dimension].
  split; [done|].
  assert (Hlen : length embs = length (c :: chunks)).
  { apply (f_equal length) in Ee. by rewrite !length_fmap in Ee. }
  unfold ntotal. cbn [xb]. rewrite (length_fmap chunk_id), Hlen.
  split; [done|]. split; [cbn; lia|done].
Qed.

Lemma build_faiss_index_aligned_witness :
  exists ix chunk_ids,
    index_files (Indexer.build_faiss_index None None "r" embedded_chunks empty_world).2
      !! "r"%string = Some (Intact ix) /\
    mapping_files (Indexer.build_faiss_index None None "r" embedded_chunks empty_world).2
      !! "r"%string = Some (Intact chunk_ids) /\
    chunk_ids = chunk_id <$> embedded_chunks /\
    Some <$> xb ix = embedding <$> embedded_chunks /\
    ntotal ix = length chunk_ids /\ 0 < ntotal ix /\
    Forall (fun v => length v = dimension ix) (xb ix).
Proof.
  apply (build_faiss_index_aligned None None "r" embedded_chunks empty_world).
  reflexivity.
Defined.

(** X10.  The index build validates before it writes.  Without chunks it
    raises [ValueError]; when a chunk has no embedding it raises [KeyError];
    when all chunks have embeddings and two of them differ in length it
    raises [ValueError].  In each case the stored files are left as they
    were, whatever the writes would have done. *)
Theorem build_faiss_index_rejects
    (write_index_error write_mapping_error : option write_failure)
    (repo_id : string) (chunks : list chunk) (w : world) :
  (chunks = [] ->
   Indexer.build_faiss_index write_index_error write_mapping_error repo_id chunks w
   = (Raise (ValueError "No chunks to index"), w)) /\
  (forall c, c ∈ chunks -> embedding c = None ->
   Indexer.build_faiss_index write_index_error write_mapping_error repo_id chunks w
   = (Raise (KeyError "embedding"), w)) /\
  (forall c1 c2 v1 v2,
     Forall (fun c => embedding c <> None) chunks ->
     c1 ∈ chunks -> c2 ∈ chunks ->
     embedding c1 = Some v1 -> embedding c2 = Some v2 ->
     length v1 <> length v2 ->
     Indexer.build_faiss_index write_index_error write_mapping_error repo_id chunks w
     = (Raise (ValueError "inhomogeneous shape"), w)).
Proof.
  split; [by intros ->|]. split.
  - intros c Hc Hnone. unfold Indexer.build_faiss_index.
    destruct chunks as [|c0 chunks]; [by apply elem_of_nil in Hc|].
    by rewrite (embeddings_of_missing _ c Hc Hnone).
  - intros c1 c2 v1 v2 Hall H1 H2 Hv1 Hv2 Hne. unfold Indexer.build_faiss_index.
    destruct chunks as [|c0 chunks]; [by apply elem_of_nil in H1|].
    destruct (Indexer.embeddings_of (c0 :: chunks)) as [embs|x] eqn:Ee.
    + apply embeddings_of_spec in Ee.
      assert (Hin : forall c v, c ∈ c0 :: chunks -> embedding c = Some v -> v ∈ embs).
      { intros c v Hc Hv.
        assert (Hs : Some v ∈ Some <$> embs).
        { rewrite Ee, <- Hv. by apply list_elem_of_fmap_2. }
        apply list_elem_of_fmap in Hs as (v' & [= ->] & Hv'). done. }
      by rewrite (matrix_dimension_ragged embs v1 v2 (Hin _ _ H1 Hv1) (Hin _ _ H2 Hv2) Hne).
    + exfalso. clear -Hall Ee. revert x Ee.
      generalize dependent (c0 :: chunks). clear. intros l Hall.
      induction Hall as [|c l Hc Hall IH]; intros x; cbn; [done|].
      destruct (embedding c); [|done].
      destruct (Indexer.embeddings_of l); [done|]. intros [= <-]. by eapply IH.
Qed.

Lemma build_faiss_index_rejects_witness :
  Indexer.build_faiss_index None None "r"
    [with_embedding [0%Z] chunk_a; chunk_b] ready_world
  = (Raise (KeyError "embedding"), ready_world).
Proof.
  apply (proj1 (proj2 (build_faiss_index_rejects None None "r"
                         [with_embedding [0%Z] chunk_a; chunk_b] ready_world))
           chunk_b).
  - apply list_elem_of_further, list_elem_of_here.
  - reflexivity.
Defined.

(** ** Search and retrieval: further properties *)

Lemma py_index_elem {A : Type} (l : list A) idx x : py_index l idx = Ok x -> x ∈ l.
Proof.
  unfold py_index. destruct (_ && _); [|done].
  destruct (l !! _) as [y|] eqn:Ey; [|done]. intros [= <-].
  by apply list_elem_of_lookup_2 in Ey.
Qed.

Lemma collect_chunk_ids_subset chunk_ids labels cids cid :
  Indexer.collect_chunk_ids chunk_ids labels = Ok cids ->
  cid ∈ cids -> cid ∈ chunk_ids.
Proof.
  revert cids. induction labels as [|idx labels IH]; intros cids;
    cbn [Indexer.collect_chunk_ids].
  - intros [= <-] ?%elem_of_nil. done.
  - destruct (_ <? _)%Z; [|by apply IH].
    destruct (py_index chunk_ids idx) as [x|] eqn:Ex; [|done].
    destruct (Indexer.collect_chunk_ids chunk_ids labels) as [xs|]; [|done].
    intros [= <-] [->|Hc]%elem_of_cons; [by apply py_index_elem in Ex|].
    by apply (IH xs).
Qed.

Lemma get_chunk_by_id_spec w cid c :
  Db.get_chunk_by_id w cid = Some c ->
  chunk_id c = cid /\ exists owner, (owner, c) ∈ chunks_table w.
Proof.
  unfold Db.get_chunk_by_id.
  destruct (list_find _ (chunks_table w)) as [[i [owner row]]|] eqn:Ef; [|done].
  cbn. intros [= <-]. apply list_find_Some in Ef as (Hi & Hid & _).
  split; [done|]. exists owner. by apply list_elem_of_lookup_2 in Hi.
Qed.

Lemma py_slice_to_elem {A : Type} (l : list A) stop x :
  x ∈ py_slice_to l stop -> x ∈ l.
Proof.
  unfold py_slice_to.
  destruct (_ <? _)%Z; intros (i & Hi & _)%elem_of_take;
    by apply list_elem_of_lookup_2 in Hi.
Qed.

(** X11.  Search and retrieval stay inside the index: every id that the
    search returns is an id of the repository's mapping, and every chunk that
    a retrieval returns is a row of the chunks table, up to the scratch
    score, whose id is an id of the mapping. *)
Theorem retrieve_returns_indexed_rows
    (create_query_embedding : str -> result (list Z)) (w : world)
    (repo_id : string) (query : str) (top_k : Z) :
  (forall q k chunk_ids,
     Indexer.search_index w repo_id q k = Ok chunk_ids ->
     exists mapped, mapping_files w !! repo_id = Some (Intact mapped) /\
       Forall (fun cid => cid ∈ mapped) chunk_ids) /\
  (forall use_reranking chunks,
     Retriever.retrieve_relevant_chunks create_query_embedding w repo_id query
       top_k use_reranking = Ok chunks ->
     exists mapped, mapping_files w !! repo_id = Some (Intact mapped) /\
       Forall (fun c => chunk_id c ∈ mapped /\
                 exists owner row, (owner, row) ∈ chunks_table w /\
                   same_fields row c) chunks).
Proof.
  assert (Hsearch : forall q k chunk_ids,
     Indexer.search_index w repo_id q k = Ok chunk_ids ->
     exists mapped, mapping_files w !! repo_id = Some (Intact mapped) /\
       Forall (fun cid => cid ∈ mapped) chunk_ids).
  { intros q k chunk_ids. unfold Indexer.search_index.
    destruct (index_files w !! repo_id) as [[ix|]|],
      (mapping_files w !! repo_id) as [[mapped|]|]; try done.
    destruct (Indexer.index_search ix q k) as [labels|]; [|done].
    intros Hc. exists mapped. split; [done|]. apply Forall_forall.
    intros cid Hcid. by eapply collect_chunk_ids_subset. }
  split; [exact Hsearch|].
  intros use_reranking chunks. unfold Retriever.retrieve_relevant_chunks.
  destruct (create_query_embedding query) as [q|]; [|done].
  destruct (Indexer.search_index _ _ _ _) as [chunk_ids|] eqn:Es; [|done].
  destruct (Hsearch _ _ _ Es) as (mapped & Hmapped & Hids).
  rewrite Forall_forall in Hids.
  assert (Hhyd : forall c, c ∈ omap (Db.get_chunk_by_id w) chunk_ids ->
            chunk_id c ∈ mapped /\ exists owner, (owner, c) ∈ chunks_table w).
  { intros c (cid & Hcid & Hget)%list_elem_of_omap.
    apply get_chunk_by_id_spec in Hget as [<- Hrow]. auto. }
  intros Hres. exists mapped. split; [done|]. apply Forall_forall. intros c Hc.
  destruct (use_reranking && _); injection Hres as <-.
  - apply py_slice_to_elem in Hc. rewrite rerank_chunks_eq in Hc.
    apply list_elem_of_fmap in Hc as (c0 & -> & Hc0).
    rewrite stable_sort_Permutation in Hc0.
    destruct (Hhyd c0 Hc0) as (Hid & owner & Hrow).
    split; [done|]. exists owner, c0. split; [done|]. apply same_fields_pop.
  - destruct (Hhyd c Hc) as (Hid & owner & Hrow).
    split; [done|]. exists owner, c. split; [done|]. by repeat split.
Qed.

Lemma retrieve_returns_indexed_rows_witness :
  exists mapped, mapping_files ready_world !! "r"%string = Some (Intact mapped) /\
    Forall (fun cid => cid ∈ mapped) ["c1"; "c2"]%string.
Proof.
  apply (proj1 (retrieve_returns_indexed_rows origin_embedding ready_world "r"
                  (lit "retry policy") 1) [0%Z] 2%Z).
  by vm_compute.
Defined.




(** ** The nearest neighbours: proofs *)















(** ** The chunks table: further properties *)

Lemma filter_owner_new repo_id (chunks : list chunk) :
  filter (fun row : string * chunk => row.1 = repo_id)
    ((fun c => (repo_id, Db.chunk_row c)) <$> chunks)
  = (fun c => (repo_id, Db.chunk_row c)) <$> chunks.
Proof.
  induction chunks as [|c chunks IH]; [done|].
  rewrite fmap_cons, filter_cons_True by done. by rewrite IH.
Qed.

Lemma filter_other_new repo_id (chunks : list chunk) :
  filter (fun row : string * chunk => row.1 <> repo_id)
    ((fun c => (repo_id, Db.chunk_row c)) <$> chunks) = [].
Proof.
  induction chunks as [|c chunks IH]; [done|].
  rewrite fmap_cons, filter_cons_False by (cbn; tauto). done.
Qed.

Lemma filter_owner_kept repo_id (table : list (string * chunk)) :
  filter (fun row : string * chunk => row.1 = repo_id)
    (filter (fun row : string * chunk => row.1 <> repo_id) table) = [].
Proof.
  induction table as [|row table IH]; [done|].
  rewrite (filter_cons (fun row : string * chunk => row.1 <> repo_id)).
  case_decide; [|done]. rewrite filter_cons_False by done. done.
Qed.

Lemma filter_other_kept repo_id (table : list (string * chunk)) :
  filter (fun row : string * chunk => row.1 <> repo_id)
    (filter (fun row : string * chunk => row.1 <> repo_id) table)
  = filter (fun row : string * chunk => row.1 <> repo_id) table.
Proof.
  induction table as [|row table IH]; [done|].
  rewrite (filter_cons (fun row : string * chunk => row.1 <> repo_id) row table).
  case_decide; [|done]. rewrite filter_cons_True by done. by rewrite IH.
Qed.

Lemma length_remove_dups_size (l : list string) :
  length (remove_dups l) = size (list_to_set l : gset string).
Proof.
  rewrite <- (size_list_to_set (C:=gset string) (remove_dups l))
    by apply NoDup_remove_dups.
  f_equal. apply set_eq. intros x.
  by rewrite !elem_of_list_to_set, elem_of_remove_dups.
Qed.

(** X15.  Saving the chunks of a repository replaces its rows wholesale: on
    success the repository's rows are the saved chunks, in order, without
    embedding and scratch score; the rows of other repositories and the
    index files are as before; and the repository's row counts the saved
    chunks and their distinct file paths.  On failure nothing at all has
    changed. *)
Theorem save_chunks_replaces (save_error : option exn) (repo_id : string)
    (chunks : list chunk) (w w' : world) (r : result unit) :
  Db.save_chunks save_error repo_id chunks w = (r, w') ->
  match r with
  | Raise _ => w' = w
  | Ok _ =>
      rows_of repo_id (chunks_table w') = Db.chunk_row <$> chunks /\
      rows_of_others repo_id (chunks_table w')
      = rows_of_others repo_id (chunks_table w) /\
      index_files w' = index_files w /\ mapping_files w' = mapping_files w /\
      (forall other, other <> repo_id ->
         repositories w' !! other = repositories w !! other) /\
      (forall row, repositories w !! repo_id = Some row ->
         repositories w' !! repo_id
         = Some {| repo_url := repo_url row; status := status row;
                   error_message := error_message row;
                   indexed_at := indexed_at row;
                   file_count :=
                     size (list_to_set (file_path <$> chunks) : gset string);
                   chunk_count := length chunks |})
  end.
Proof.
  unfold Db.save_chunks. destruct save_error as [x|]; intros [= <- <-]; [done|].
  cbn [chunks_table index_files mapping_files repositories].
  unfold rows_of, rows_of_others. rewrite !filter_app.
  rewrite filter_owner_kept, filter_owner_new, filter_other_kept, filter_other_new.
  rewrite app_nil_r. cbn [app].
  split; [by rewrite <- list_fmap_compose|].
  split; [done|]. split; [done|]. split; [done|]. split.
  - intros other Hne. by rewrite lookup_alter_ne.
  - intros row Hrow. rewrite lookup_alter_eq, Hrow. cbn.
    by rewrite length_remove_dups_size.
Qed.

Lemma save_chunks_replaces_witness :
  rows_of "r" (chunks_table (Db.save_chunks None "r" embedded_chunks ready_world).2)
  = Db.chunk_row <$> embedded_chunks.
Proof.
  apply (save_chunks_replaces None "r" embedded_chunks ready_world
           (Db.save_chunks None "r" embedded_chunks ready_world).2 (Ok tt)).
  reflexivity.
Defined.

Lemma get_chunk_by_id_skip w cid (kept rows : list (string * chunk)) :
  chunks_table w = kept ++ rows ->
  (forall row, row ∈ kept -> chunk_id row.2 <> cid) ->
  Db.get_chunk_by_id w cid
  = snd <$> (snd <$> list_find (fun row : string * chunk => chunk_id row.2 = cid) rows).
Proof.
  intros Ht Hkept. unfold Db.get_chunk_by_id. rewrite Ht. clear Ht.
  induction kept as [|row kept IH]; [done|].
  cbn [app list_find]. rewrite decide_False by (apply Hkept, list_elem_of_here).
  rewrite <- IH by (intros r Hr; by apply Hkept, list_elem_of_further).
  by destruct (list_find _ (kept ++ rows)) as [[]|].
Qed.

Lemma list_find_saved repo_id (chunks : list chunk) c :
  NoDup (chunk_id <$> chunks) -> c ∈ chunks ->
  snd <$> (snd <$> list_find (fun row : string * chunk => chunk_id row.2 = chunk_id c)
                     ((fun c => (repo_id, Db.chunk_row c)) <$> chunks))
  = Some (Db.chunk_row c).
Proof.
  induction chunks as [|c0 chunks IH]; intros Hnd Hc; [by apply elem_of_nil in Hc|].
  rewrite fmap_cons in *. apply NoDup_cons in Hnd as [Hnotin Hnd].
  cbn [list_find]. apply elem_of_cons in Hc as [->|Hc].
  - by rewrite decide_True.
  - rewrite decide_False.
    + specialize (IH Hnd Hc).
      by destruct (list_find _ _) as [[]|].
    + cbn. intros Heq. apply Hnotin. rewrite Heq. by apply list_elem_of_fmap_2.
Qed.

(** X16.  Round trip of save and lookup: after a successful save of chunks
    with pairwise distinct ids, none of which is the id of a row of another
    repository, each saved chunk is found by its id, with its columns and
    without embedding. *)
Theorem save_then_get_chunk (save_error : option exn) (repo_id : string)
    (chunks : list chunk) (w w' : world) (c : chunk) :
  Db.save_chunks save_error repo_id chunks w = (Ok tt, w') ->
  NoDup (chunk_id <$> chunks) ->
  (forall owner row, (owner, row) ∈ chunks_table w -> owner <> repo_id ->
     chunk_id row ∉ chunk_id <$> chunks) ->
  c ∈ chunks ->
  Db.get_chunk_by_id w' (chunk_id c) = Some (Db.chunk_row c).
Proof.
  unfold Db.save_chunks. destruct save_error as [x|]; [done|].
  intros [= <-] Hnd Hfresh Hc.
  rewrite (get_chunk_by_id_skip _ (chunk_id c)
             (filter (fun row : string * chunk => row.1 <> repo_id) (chunks_table w))
             ((fun c => (repo_id, Db.chunk_row c)) <$> chunks)); [|done|].
  - by apply list_find_saved.
  - intros [owner row] [Hne Hrow]%list_elem_of_filter Heq. cbn in *.
    apply (Hfresh owner row Hrow Hne). rewrite Heq. by apply list_elem_of_fmap_2.
Qed.

Lemma save_then_get_chunk_witness :
  Db.get_chunk_by_id (Db.save_chunks None "r" embedded_chunks ready_world).2 "c2"
  = Some chunk_b.
Proof.
  apply (save_then_get_chunk None "r" embedded_chunks ready_world _
           (with_embedding [3%Z; 4%Z] chunk_b)).
  - reflexivity.
  - vm_compute. repeat constructor; rewrite ?elem_of_cons, ?elem_of_nil;
      intuition discriminate.
  - intros owner row Hrow Hne. exfalso. apply Hne.
    unfold ready_world in Hrow. cbn [chunks_table] in Hrow.
    rewrite !elem_of_cons, elem_of_nil in Hrow.
    destruct Hrow as [[= -> _]|[[= -> _]|[[= -> _]|[]]]]; reflexivity.
  - apply list_elem_of_further, list_elem_of_here.
Defined.

(** ** The embedding stage: proofs *)

Lemma embed_loop_length embed_batch :
  (forall n b vs, embed_batch n b = Ok vs -> length vs = length b) ->
  forall fuel batch texts acc,
    length texts <= fuel ->
    length (Embedder.embed_loop embed_batch fuel batch texts acc)
    = length acc + length texts.
Proof.
  intros Hlen. induction fuel as [|fuel IH]; intros batch texts acc Hfuel.
  - destruct texts; [cbn; lia|cbn in Hfuel; lia].
  - destruct texts as [|t texts]; [cbn; lia|].
    cbn [Embedder.embed_loop]. rewrite IH.
    2:{ rewrite length_drop. cbn in *. unfold Embedder.batch_size. lia. }
    rewrite length_app, length_drop.
    assert (length (match embed_batch batch (take Embedder.batch_size (t :: texts)) with
                    | Ok batch_embeddings => batch_embeddings
                    | Raise _ => Embedder.zero_embeddings acc
                                   (take Embedder.batch_size (t :: texts))
                    end) = length (take Embedder.batch_size (t :: texts))) as ->.
    { destruct (embed_batch batch _) eqn:E; [by apply Hlen in E|].
      unfold Embedder.zero_embeddings. by rewrite length_fmap. }
    rewrite length_take. lia.
Qed.

Lemma embed_loop_prefix embed_batch fuel :
  forall batch texts acc,
    exists more, Embedder.embed_loop embed_batch fuel batch texts acc = acc ++ more.
Proof.
  induction fuel as [|fuel IH]; intros batch texts acc.
  - exists []. destruct texts; cbn; by rewrite app_nil_r.
  - destruct texts as [|t texts]; [exists []; cbn; by rewrite app_nil_r|].
    cbn [Embedder.embed_loop].
    edestruct IH as [more ->]. rewrite <- app_assoc. eauto.
Qed.

Lemma embed_loop_rows embed_batch d :
  (forall n b vs, embed_batch n b = Ok vs ->
     length vs = length b /\ Forall (fun v => length v = d) vs) ->
  forall fuel batch texts acc,
    Forall (fun v => length v = d) acc ->
    (acc = [] -> d = 1536 \/ exists vs, embed_batch batch (take Embedder.batch_size texts) = Ok vs) ->
    Forall (fun v => length v = d) (Embedder.embed_loop embed_batch fuel batch texts acc).
Proof.
  intros Hb. induction fuel as [|fuel IH]; intros batch texts acc Hacc Hfirst.
  - by destruct texts.
  - destruct texts as [|t texts]; [done|].
    cbn [Embedder.embed_loop]. apply IH.
    + apply Forall_app. split; [done|].
      destruct (embed_batch batch _) as [vs|x] eqn:E; [by apply Hb in E as [_ ?]|].
      unfold Embedder.zero_embeddings. apply Forall_fmap, Forall_true. intros ?. cbn.
      rewrite length_replicate. destruct acc as [|v acc].
      * destruct (Hfirst eq_refl) as [->|[vs Hvs]]; [done|]. congruence.
      * by apply Forall_cons in Hacc as [? _].
    + intros Hnil. apply app_eq_nil in Hnil as [-> Hnil]. exfalso.
      destruct (embed_batch batch _) as [vs|x] eqn:E.
      * apply Hb in E as [E _]. subst vs. done.
      * done.
Qed.

Lemma matrix_dimension_intro rows d :
  rows <> [] -> Forall (fun v => length v = d) rows ->
  Indexer.matrix_dimension rows = Ok d.
Proof.
  destruct rows as [|r rows]; [done|]. intros _ [Hr Hrows]%Forall_cons.
  cbn. rewrite Hr.
  assert (forallb (fun r' => length r' =? d) rows = true) as ->; [|done].
  apply forallb_forall. intros v Hv%list_elem_of_In.
  rewrite Forall_forall in Hrows. apply Nat.eqb_eq. by apply Hrows.
Qed.

(** X17.  One embedding per text, in a rectangular matrix.  When every batch
    that succeeds returns one vector of dimension [d] per text, and the first
    batch succeeds or [d] is 1536, the embeddings collected for a non-empty
    list of texts are as many as the texts and make a matrix of dimension
    [d], whichever of the later batches fail. *)
Theorem embed_all_rectangular
    (embed_batch : nat -> list str -> result (list (list Z)))
    (d : nat) (texts : list str) :
  (forall n b vs, embed_batch n b = Ok vs ->
     length vs = length b /\ Forall (fun v => length v = d) vs) ->
  (d = 1536 \/
   exists vs, embed_batch 0 (take Embedder.batch_size texts) = Ok vs) ->
  texts <> [] ->
  exists embs,
    Embedder.embed_all (Ok embed_batch) texts = Ok embs /\
    length embs = length texts /\
    Indexer.matrix_dimension embs = Ok d.
Proof.
  intros Hb Hfirst Hne. eexists. split; [done|].
  assert (length (Embedder.embed_loop embed_batch (length texts) 0 texts [])
          = length texts) as Hlen.
  { rewrite embed_loop_length; [done| |done].
    intros n b vs E. by apply Hb in E as [? _]. }
  split; [done|]. apply matrix_dimension_intro.
  - intros Hnil. rewrite Hnil in Hlen. by destruct texts.
  - by apply embed_loop_rows.
Qed.

Lemma embed_all_rectangular_witness :
  exists embs,
    Embedder.embed_all (Ok late_flaky_model) forty_texts = Ok embs /\
    length embs = length forty_texts /\
    Indexer.matrix_dimension embs = Ok 2.
Proof.
  apply (embed_all_rectangular late_flaky_model 2 forty_texts).
  - intros [|[|n]] b vs; cbn; [|done|]; intros [= <-];
      (split; [by rewrite length_fmap|]); by apply Forall_fmap, Forall_true.
  - right. by eexists.
  - done.
Defined.

(** X18.  The filler of a failed first batch has dimension 1536 whatever the
    model: when the first batch fails and the second batch succeeds with a
    vector of another dimension, the collected embeddings have rows of
    different lengths, and the conversion to a matrix, with which the index
    build begins, raises [ValueError]. *)
Theorem embed_all_mixed_dimensions
    (embed_batch : nat -> list str -> result (list (list Z)))
    (texts : list str) (x : exn) (vs : list (list Z)) (v : list Z) :
  Embedder.batch_size < length texts ->
  embed_batch 0 (take Embedder.batch_size texts) = Raise x ->
  embed_batch 1 (take Embedder.batch_size (drop Embedder.batch_size texts)) = Ok vs ->
  v ∈ vs -> length v <> 1536 ->
  exists embs,
    Embedder.embed_all (Ok embed_batch) texts = Ok embs /\
    Indexer.matrix_dimension embs = Raise (ValueError "inhomogeneous shape").
Proof.
  intros Hlen E0 E1 Hv Hd. eexists. split; [done|].
  destruct texts as [|t texts]; [cbn in Hlen; lia|].
  cbn [length Embedder.embed_loop]. rewrite E0.
  destruct (drop Embedder.batch_size (t :: texts)) as [|t' texts'] eqn:Ed.
  { apply (f_equal length) in Ed. rewrite length_drop in Ed.
    cbn [length] in *. unfold Embedder.batch_size in *. lia. }
  destruct (length texts) as [|n] eqn:En;
    [cbn in Hlen; unfold Embedder.batch_size in Hlen; lia|].
  cbn [Embedder.embed_loop]. rewrite E1.
  edestruct (embed_loop_prefix embed_batch n 2 (drop Embedder.batch_size (t' :: texts')))
    as [more ->].
  apply (matrix_dimension_ragged _ (replicate 1536 0%Z) v).
  - cbn. rewrite <- !app_assoc. cbn. apply list_elem_of_here.
  - rewrite !elem_of_app. auto.
  - by rewrite length_replicate.
Qed.

Lemma embed_all_mixed_dimensions_witness :
  exists embs,
    Embedder.embed_all (Ok flaky_model) forty_texts = Ok embs /\
    Indexer.matrix_dimension embs = Raise (ValueError "inhomogeneous shape").
Proof.
  apply (embed_all_mixed_dimensions flaky_model forty_texts
           (RuntimeError "connection reset")
           (replicate 8 [1%Z; 2%Z]) [1%Z; 2%Z]).
  - vm_compute. lia.
  - reflexivity.
  - reflexivity.
  - apply list_elem_of_here.
  - vm_compute. lia.
Defined.

(** ** The indexing task: proofs *)

Lemma attach_embeddings_length chunks embs :
  length (Repos.attach_embeddings chunks embs) = length chunks.
Proof.
  revert embs. induction chunks as [|c chunks IH]; intros [|v embs]; cbn; auto.
Qed.

Lemma attach_embeddings_ids chunks embs :
  chunk_id <$> Repos.attach_embeddings chunks embs = chunk_id <$> chunks.
Proof.
  revert embs. induction chunks as [|c chunks IH]; intros [|v embs]; cbn;
    [done..|]. by rewrite IH.
Qed.

Lemma attach_embeddings_paths chunks embs :
  file_path <$> Repos.attach_embeddings chunks embs = file_path <$> chunks.
Proof.
  revert embs. induction chunks as [|c chunks IH]; intros [|v embs]; cbn;
    [done..|]. by rewrite IH.
Qed.

Lemma attach_embeddings_rows chunks embs :
  Db.chunk_row <$> Repos.attach_embeddings chunks embs = Db.chunk_row <$> chunks.
Proof.
  revert embs. induction chunks as [|c chunks IH]; intros [|v embs]; cbn;
    [done..|]. by rewrite IH.
Qed.

Lemma embeddings_of_attach chunks embs :
  length chunks <= length embs ->
  Indexer.embeddings_of (Repos.attach_embeddings chunks embs)
  = Ok (take (length chunks) embs).
Proof.
  revert embs. induction chunks as [|c chunks IH]; intros [|v embs] Hlen;
    cbn in *; [done|done|lia|].
  rewrite IH by lia. done.
Qed.

Lemma embeddings_of_attach_inv chunks embs vs :
  Forall (fun c => embedding c = None) chunks ->
  Indexer.embeddings_of (Repos.attach_embeddings chunks embs) = Ok vs ->
  length chunks <= length embs /\ vs = take (length chunks) embs.
Proof.
  revert embs vs. induction chunks as [|c chunks IH]; intros embs vs Hnone.
  - destruct embs; cbn; intros [= <-]; split; (lia || done).
  - apply Forall_cons in Hnone as [Hc Hnone].
    destruct embs as [|v embs]; cbn; [by rewrite Hc|].
    destruct (Indexer.embeddings_of _) as [vs'|] eqn:E; [|done].
    intros [= <-]. destruct (IH _ _ Hnone E) as [Hlen ->]. split; [lia|done].
Qed.

Lemma parse_files_plain e files drawn :
  Forall (fun c => embedding c = None /\ rerank_score c = None)
    (Repos.parse_files e files drawn).
Proof.
  revert drawn. induction files as [|f files IH]; intros drawn;
    cbn [Repos.parse_files]; [done|].
  destruct (strip (Repos.text f)) as [|a0 t0]; [by apply IH|].
  apply Forall_app. split; [|by apply IH].
  apply Forall_forall. intros c Hc. unfold Parser.chunk_content in Hc.
  destruct (splitlines _) as [|ln lns]; [by apply elem_of_nil in Hc|].
  apply chunk_loop_fields in Hc. tauto.
Qed.

Lemma chunk_row_plain chunks :
  Forall (fun c => embedding c = None /\ rerank_score c = None) chunks ->
  Db.chunk_row <$> chunks = chunks.
Proof.
  induction 1 as [|c chunks [He Hr] _ IH]; [done|].
  rewrite fmap_cons, IH. f_equal. destruct c; cbn in *. by subst.
Qed.

(** The build once the embeddings make a matrix: what is left to do are the
    two writes. *)
Lemma build_faiss_index_validated ie me repo_id chunks vs dim w :
  Indexer.embeddings_of chunks = Ok vs ->
  Indexer.matrix_dimension vs = Ok dim ->
  Indexer.build_faiss_index ie me repo_id chunks w
  = let put_index (file : stored faiss_index) : world :=
      {| index_files := <[repo_id := file]> (index_files w);
         mapping_files := mapping_files w;
         repositories := repositories w;
         chunks_table := chunks_table w |} in
    let put_files (file : stored (list string)) : world :=
      {| index_files :=
           <[repo_id := Intact {| dimension := dim; xb := vs |}]> (index_files w);
         mapping_files := <[repo_id := file]> (mapping_files w);
         repositories := repositories w;
         chunks_table := chunks_table w |} in
    match ie with
    | Some (Refused x) => (Raise x, w)
    | Some (Torn x) => (Raise x, put_index Damaged)
    | None =>
        match me with
        | Some (Refused x) =>
            (Raise x, put_index (Intact {| dimension := dim; xb := vs |}))
        | Some (Torn x) => (Raise x, put_files Damaged)
        | None => (Ok tt, put_files (Intact (chunk_id <$> chunks)))
        end
    end.
Proof.
  intros Hvs Hdim. unfold Indexer.build_faiss_index.
  destruct chunks as [|c chunks].
  { cbn in Hvs. injection Hvs as <-. done. }
  rewrite Hvs, Hdim. by destruct ie as [[]|], me as [[]|].
Qed.

Lemma build_faiss_index_invalid ie me repo_id chunks x w :
  chunks <> [] ->
  Indexer.embeddings_of chunks = Raise x \/
  (exists vs, Indexer.embeddings_of chunks = Ok vs /\
     Indexer.matrix_dimension vs = Raise x) ->
  Indexer.build_faiss_index ie me repo_id chunks w = (Raise x, w).
Proof.
  intros Hne Hbad. unfold Indexer.build_faiss_index.
  destruct chunks as [|c chunks]; [done|].
  destruct Hbad as [->|(vs & -> & ->)]; done.
Qed.

Lemma attach_embeddings_nonempty chunks embs :
  chunks <> [] -> Repos.attach_embeddings chunks embs <> [].
Proof.
  intros Hne Hnil. apply (f_equal length) in Hnil.
  rewrite attach_embeddings_length in Hnil. by destruct chunks.
Qed.

(** The stages up to the embedding stage. *)
Lemma indexing_stages_embedded e repo_id url branch github_token embs w :
  embedded e repo_id url branch github_token embs ->
  Repos.indexing_stages e repo_id url branch github_token w
  = let w0 := (Db.update_repo_status None (Repos.now e) repo_id INDEXING None w).2 in
    let cwe := Repos.attach_embeddings (parsed_chunks e) embs in
    (Indexer.build_faiss_index (Repos.write_index_error e)
       (Repos.write_mapping_error e) repo_id cwe ;;
     Db.save_chunks (Repos.save_chunks_error e) repo_id cwe ;;
     Db.update_repo_status (Repos.status_write_error e READY) (Repos.now e)
       repo_id READY None)%task w0.
Proof.
  intros [[[Hmark [path Hclone]] Hne] Hemb].
  unfold marked_indexing in Hmark. unfold parsed_chunks in *.
  unfold Repos.indexing_stages. rewrite Hmark. unfold bind at 1. cbn [snd].
  unfold Db.update_repo_status at 1. unfold bind at 1. rewrite Hclone.
  unfold bind at 1, Repos.parse_repository, ret.
  destruct (Repos.parse_files e (Repos.repo_files e) 0) as [|c cs] eqn:Ep;
    [done|].
  unfold bind at 1, Repos.create_embeddings. rewrite Hemb. unfold ret. done.
Qed.

Lemma rows_of_saved repo_id (table : list (string * chunk)) chunks :
  rows_of repo_id
    (filter (fun row : string * chunk => row.1 <> repo_id) table
     ++ ((fun c => (repo_id, Db.chunk_row c)) <$> chunks))
  = Db.chunk_row <$> chunks /\
  rows_of_others repo_id
    (filter (fun row : string * chunk => row.1 <> repo_id) table
     ++ ((fun c => (repo_id, Db.chunk_row c)) <$> chunks))
  = rows_of_others repo_id table.
Proof.
  unfold rows_of, rows_of_others. rewrite !filter_app.
  rewrite filter_owner_kept, filter_owner_new, filter_other_kept, filter_other_new.
  rewrite app_nil_r. cbn [app]. split; [|done].
  by rewrite <- list_fmap_compose.
Qed.

Lemma parsed_chunks_rows e embs :
  Db.chunk_row <$> Repos.attach_embeddings (parsed_chunks e) embs
  = parsed_chunks e.
Proof.
  rewrite attach_embeddings_rows. apply chunk_row_plain, parse_files_plain.
Qed.

(** What the stages leave when one of them raises. *)
Lemma indexing_stages_raises e repo_id url branch github_token fp x w :
  stage_raises e repo_id url branch github_token fp x ->
  exists w1,
    Repos.indexing_stages e repo_id url branch github_token w = (Raise x, w1) /\
    left_by fp repo_id (parsed_chunks e) w w1 /\
    (forall other, other <> repo_id ->
       index_files w1 !! other = index_files w !! other /\
       mapping_files w1 !! other = mapping_files w !! other) /\
    rows_of_others repo_id (chunks_table w1)
    = rows_of_others repo_id (chunks_table w) /\
    (forall row, repositories w !! repo_id = Some row ->
       exists row1, repositories w1 !! repo_id = Some row1 /\
         match Repos.status_write_error e INDEXING with
         | None => status row1 = INDEXING
         | Some _ => row1 = row
         end).
Proof.
  intros Hraise.
  assert (Hbuilt : forall embs vs dim,
            arrayed e repo_id url branch github_token embs vs dim ->
            Repos.indexing_stages e repo_id url branch github_token w
            = (Indexer.build_faiss_index (Repos.write_index_error e)
                 (Repos.write_mapping_error e) repo_id
                 (Repos.attach_embeddings (parsed_chunks e) embs) ;;
               Db.save_chunks (Repos.save_chunks_error e) repo_id
                 (Repos.attach_embeddings (parsed_chunks e) embs) ;;
               Db.update_repo_status (Repos.status_write_error e READY)
                 (Repos.now e) repo_id READY None)%task
                (Db.update_repo_status None (Repos.now e) repo_id INDEXING None w).2 /\
            Repos.status_write_error e INDEXING = None).
  { intros embs vs dim [Hemb _]. split; [by apply indexing_stages_embedded|].
    by destruct Hemb as [[[? _] _] _]. }
  destruct Hraise as
    [x Hmark
    |x Hmark Hclone
    |[Hmark [path Hclone]] Hnone
    |x [[Hmark [path Hclone]] Hne] Hemb
    |embs x Hembedded Hvs
    |embs vs x Hembedded Hvs Hdim
    |embs vs dim x Harr Hwi
    |embs vs dim x Harr Hwi
    |embs vs dim x [Harr Hwi] Hwm
    |embs vs dim x [Harr Hwi] Hwm
    |embs vs dim x [[Harr Hwi] Hwm] Hsave
    |embs vs dim x [[[Harr Hwi] Hwm] Hsave] Hready].
  - exists w. unfold Repos.indexing_stages, bind, Db.update_repo_status.
    rewrite Hmark. split; [done|]. split; [done|]. split; [done|].
    split; [done|]. eauto.
  - eexists. unfold marked_indexing in Hmark.
    unfold Repos.indexing_stages, bind, Db.update_repo_status.
    rewrite Hmark, Hclone. split; [reflexivity|]. rewrite ?Hmark.
    cbn. split; [done|]. split; [done|]. split; [done|].
    intros row Hrow. rewrite lookup_alter_eq, Hrow. cbn. eauto.
  - eexists. unfold marked_indexing in Hmark. unfold parsed_chunks in Hnone.
    unfold Repos.indexing_stages, bind, Db.update_repo_status,
      Repos.parse_repository, ret, raise.
    rewrite Hmark, Hclone, Hnone. split; [reflexivity|]. rewrite ?Hmark.
    cbn. split; [done|]. split; [done|]. split; [done|].
    intros row Hrow. rewrite lookup_alter_eq, Hrow. cbn. eauto.
  - eexists. unfold marked_indexing in Hmark. unfold parsed_chunks in *.
    unfold Repos.indexing_stages, bind, Db.update_repo_status,
      Repos.parse_repository, Repos.create_embeddings, ret, raise.
    rewrite Hmark, Hclone.
    destruct (Repos.parse_files e (Repos.repo_files e) 0) as [|c cs]; [done|].
    rewrite Hemb. split; [reflexivity|]. rewrite ?Hmark.
    cbn. split; [done|]. split; [done|]. split; [done|].
    intros row Hrow. rewrite lookup_alter_eq, Hrow. cbn. eauto.
  - eexists. rewrite (indexing_stages_embedded _ _ _ _ _ embs w Hembedded).
    destruct Hembedded as [[[Hmark _] Hne] _]. unfold marked_indexing in Hmark.
    cbn zeta. unfold bind at 1.
    rewrite (build_faiss_index_invalid _ _ _ _ x)
      by (by apply attach_embeddings_nonempty || by left).
    split; [reflexivity|]. rewrite ?Hmark.
    cbn. split; [done|]. split; [done|]. split; [done|].
    intros row Hrow. rewrite lookup_alter_eq, Hrow. cbn. eauto.
  - eexists. rewrite (indexing_stages_embedded _ _ _ _ _ embs w Hembedded).
    destruct Hembedded as [[[Hmark _] Hne] _]. unfold marked_indexing in Hmark.
    cbn zeta. unfold bind at 1.
    rewrite (build_faiss_index_invalid _ _ _ _ x)
      by (by apply attach_embeddings_nonempty || (right; eauto)).
    split; [reflexivity|]. rewrite ?Hmark.
    cbn. split; [done|]. split; [done|]. split; [done|].
    intros row Hrow. rewrite lookup_alter_eq, Hrow. cbn. eauto.
  - destruct (Hbuilt _ _ _ Harr) as [-> Hmark]. destruct Harr as (_ & Hvs & Hdim).
    eexists. unfold bind at 1.
    rewrite (build_faiss_index_validated _ _ _ _ vs dim) by done. rewrite Hwi.
    split; [reflexivity|]. rewrite ?Hmark.
    cbn. split; [done|]. split; [done|]. split; [done|].
    intros row Hrow. rewrite lookup_alter_eq, Hrow. cbn. eauto.
  - destruct (Hbuilt _ _ _ Harr) as [-> Hmark]. destruct Harr as (_ & Hvs & Hdim).
    eexists. unfold bind at 1.
    rewrite (build_faiss_index_validated _ _ _ _ vs dim) by done. rewrite Hwi.
    split; [reflexivity|]. rewrite ?Hmark.
    cbn. split; [done|]. split; [intros other Hne; by rewrite lookup_insert_ne|].
    split; [done|].
    intros row Hrow. rewrite lookup_alter_eq, Hrow. cbn. eauto.
  - destruct (Hbuilt _ _ _ Harr) as [-> Hmark]. destruct Harr as (_ & Hvs & Hdim).
    eexists. unfold bind at 1.
    rewrite (build_faiss_index_validated _ _ _ _ vs dim) by done. rewrite Hwi, Hwm.
    split; [reflexivity|]. rewrite ?Hmark.
    cbn. split; [done|]. split; [intros other Hne; by rewrite lookup_insert_ne|].
    split; [done|].
    intros row Hrow. rewrite lookup_alter_eq, Hrow. cbn. eauto.
  - destruct (Hbuilt _ _ _ Harr) as [-> Hmark]. destruct Harr as (_ & Hvs & Hdim).
    eexists. unfold bind at 1.
    rewrite (build_faiss_index_validated _ _ _ _ vs dim) by done. rewrite Hwi, Hwm.
    split; [reflexivity|]. rewrite ?Hmark.
    cbn. split; [done|]. split; [intros other Hne; by rewrite !lookup_insert_ne|].
    split; [done|].
    intros row Hrow. rewrite lookup_alter_eq, Hrow. cbn. eauto.
  - destruct (Hbuilt _ _ _ Harr) as [-> Hmark]. destruct Harr as (_ & Hvs & Hdim).
    eexists. unfold bind at 1.
    rewrite (build_faiss_index_validated _ _ _ _ vs dim) by done. rewrite Hwi, Hwm.
    unfold bind at 1, Db.save_chunks. rewrite Hsave.
    split; [reflexivity|]. rewrite ?Hmark.
    cbn. rewrite attach_embeddings_ids.
    split; [done|]. split; [intros other Hne; by rewrite !lookup_insert_ne|].
    split; [done|].
    intros row Hrow. rewrite lookup_alter_eq, Hrow. cbn. eauto.
  - destruct (Hbuilt _ _ _ Harr) as [-> Hmark]. destruct Harr as (_ & Hvs & Hdim).
    eexists. unfold bind at 1.
    rewrite (build_faiss_index_validated _ _ _ _ vs dim) by done. rewrite Hwi, Hwm.
    unfold bind at 1, Db.save_chunks. rewrite Hsave.
    unfold Db.update_repo_status at 1. rewrite Hready.
    split; [reflexivity|]. rewrite ?Hmark.
    cbn [left_by index_files mapping_files chunks_table repositories snd
         Db.update_repo_status].
    rewrite attach_embeddings_ids.
    destruct (rows_of_saved repo_id (chunks_table w)
                (Repos.attach_embeddings (parsed_chunks e) embs)) as [Hrows Hothers].
    rewrite parsed_chunks_rows in Hrows.
    split; [done|]. split; [intros other Hne; by rewrite !lookup_insert_ne|].
    split; [done|].
    intros row Hrow. rewrite !lookup_alter_eq, Hrow. cbn. eauto.
Qed.

(** What the stages leave when all of them return. *)
Lemma indexing_stages_completed e repo_id url branch github_token embs vs dim w :
  completed e repo_id url branch github_token embs vs dim ->
  exists w1,
    Repos.indexing_stages e repo_id url branch github_token w = (Ok tt, w1) /\
    index_files w1
    = <[repo_id := Intact {| dimension := dim; xb := vs |}]> (index_files w) /\
    mapping_files w1
    = <[repo_id := Intact (chunk_id <$> parsed_chunks e)]> (mapping_files w) /\
    rows_of repo_id (chunks_table w1) = parsed_chunks e /\
    rows_of_others repo_id (chunks_table w1)
    = rows_of_others repo_id (chunks_table w) /\
    (forall row, repositories w !! repo_id = Some row ->
       repositories w1 !! repo_id
       = Some {| repo_url := repo_url row; status := READY;
                 error_message := None; indexed_at := Some (Repos.now e);
                 file_count :=
                   size (list_to_set (file_path <$> parsed_chunks e)
                         : gset string);
                 chunk_count := length (parsed_chunks e) |}).
Proof.
  intros [[[[Harr Hwi] Hwm] Hsave] Hready].
  destruct Harr as (Hembedded & Hvs & Hdim).
  rewrite (indexing_stages_embedded _ _ _ _ _ embs w Hembedded).
  eexists. cbn zeta. unfold bind at 1.
  rewrite (build_faiss_index_validated _ _ _ _ vs dim) by done. rewrite Hwi, Hwm.
  unfold bind at 1, Db.save_chunks. rewrite Hsave.
  unfold Db.update_repo_status at 1. rewrite Hready.
  split; [reflexivity|].
  cbn [index_files mapping_files chunks_table repositories snd
       Db.update_repo_status].
  rewrite attach_embeddings_ids.
  destruct (rows_of_saved repo_id (chunks_table w)
              (Repos.attach_embeddings (parsed_chunks e) embs)) as [Hrows Hothers].
  rewrite parsed_chunks_rows in Hrows.
  split; [done|]. split; [done|]. split; [done|]. split; [done|].
  intros row Hrow. rewrite !lookup_alter_eq, Hrow. cbn.
  by rewrite length_remove_dups_size, attach_embeddings_paths,
    attach_embeddings_length.
Qed.

(** A run either completes or has a stage that raises. *)
Lemma indexing_run_cases e repo_id url branch github_token :
  (exists embs vs dim, completed e repo_id url branch github_token embs vs dim) \/
  (exists fp x, stage_raises e repo_id url branch github_token fp x).
Proof.
  destruct (Repos.status_write_error e INDEXING) as [x|] eqn:Hmark.
  { right. eexists _, x. by apply raises_mark_indexing. }
  destruct (Repos.clone_repository e repo_id url branch github_token)
    as [path|x] eqn:Hclone.
  2:{ right. eexists _, x. by apply raises_clone. }
  assert (Hcloned : cloned e repo_id url branch github_token) by (split; eauto).
  destruct (decide (parsed_chunks e = [])) as [Hnone|Hne].
  { right. eexists _, _. by apply raises_no_chunks. }
  assert (Hparsed : parsed e repo_id url branch github_token) by done.
  destruct (Repos.embed_all e (content <$> parsed_chunks e)) as [embs|x] eqn:Hemb.
  2:{ right. eexists _, x. by apply raises_embed. }
  assert (Hembedded : embedded e repo_id url branch github_token embs) by done.
  destruct (Indexer.embeddings_of (Repos.attach_embeddings (parsed_chunks e) embs))
    as [vs|x] eqn:Hvs.
  2:{ right. eexists _, x. by eapply raises_read_embeddings. }
  destruct (Indexer.matrix_dimension vs) as [dim|x] eqn:Hdim.
  2:{ right. eexists _, x. by eapply raises_matrix. }
  assert (Harr : arrayed e repo_id url branch github_token embs vs dim) by done.
  destruct (Repos.write_index_error e) as [[x|x]|] eqn:Hwi.
  { right. eexists _, x. by eapply raises_index_refused. }
  { right. eexists _, x. by eapply raises_index_torn. }
  assert (Hix : index_written e repo_id url branch github_token embs vs dim)
    by done.
  destruct (Repos.write_mapping_error e) as [[x|x]|] eqn:Hwm.
  { right. eexists _, x. by eapply raises_mapping_refused. }
  { right. eexists _, x. by eapply raises_mapping_torn. }
  assert (Hmw : mapping_written e repo_id url branch github_token embs vs dim)
    by done.
  destruct (Repos.save_chunks_error e) as [x|] eqn:Hsave.
  { right. eexists _, x. by eapply raises_save_chunks. }
  assert (Hcs : chunks_saved e repo_id url branch github_token embs vs dim)
    by done.
  destruct (Repos.status_write_error e READY) as [x|] eqn:Hready.
  { right. eexists _, x. by eapply raises_mark_ready. }
  left. by exists embs, vs, dim.
Qed.

Lemma no_chunks_raises e repo_id url branch github_token :
  parsed_chunks e = [] ->
  exists fp x, stage_raises e repo_id url branch github_token fp x.
Proof.
  intros Hnone.
  destruct (indexing_run_cases e repo_id url branch github_token)
    as [(embs & vs & dim & Hdone)|?]; [|done].
  by destruct Hdone as [[[[[[[_ Hne] _] _] _] _] _] _].
Qed.

(** C8, as the code has it.  A run of the indexing task on a repository of
    the database either completes all its stages or has a stage that
    raises, and zero chunks make a stage raise.  A run that completes ends
    in [READY], without error message.  When a stage raises and the write of
    the [ERROR] status succeeds, the task returns and the repository is in
    [ERROR], with the message of the exception that the stage raised.  When
    a stage raises and the write of the [ERROR] status fails, the exception
    of that write leaves the task, and the repository is in [INDEXING], or,
    when the write of [INDEXING] had failed too, as it was before the run. *)
Theorem index_repository_task_terminal (e : Repos.env)
    (repo_id url branch : string) (github_token : option string)
    (w : world) (row : repo_row) :
  repositories w !! repo_id = Some row ->
  let run := Repos.index_repository_task e repo_id url branch github_token w in
  ((exists embs vs dim, completed e repo_id url branch github_token embs vs dim) \/
   (exists fp x, stage_raises e repo_id url branch github_token fp x)) /\
  (parsed_chunks e = [] ->
   exists fp x, stage_raises e repo_id url branch github_token fp x) /\
  (forall embs vs dim,
     completed e repo_id url branch github_token embs vs dim ->
     exists w' row',
       run = (Ok tt, w') /\ repositories w' !! repo_id = Some row' /\
       status row' = READY /\ error_message row' = None) /\
  (forall fp x,
     stage_raises e repo_id url branch github_token fp x ->
     match Repos.status_write_error e ERROR with
     | None =>
         exists w' row',
           run = (Ok tt, w') /\ repositories w' !! repo_id = Some row' /\
           status row' = ERROR /\ error_message row' = Some (exn_message x)
     | Some y =>
         exists w' row',
           run = (Raise y, w') /\ repositories w' !! repo_id = Some row' /\
           match Repos.status_write_error e INDEXING with
           | None => status row' = INDEXING
           | Some _ => row' = row
           end
     end).
Proof.
  intros Hrow. cbn zeta.
  split; [apply indexing_run_cases|]. split; [apply no_chunks_raises|]. split.
  - intros embs vs dim Hdone.
    destruct (indexing_stages_completed _ _ _ _ _ _ _ _ w Hdone)
      as (w1 & Hrun & _ & _ & _ & _ & Hrow1).
    unfold Repos.index_repository_task, try_except. rewrite Hrun.
    eexists w1, _. split; [done|]. split; [by apply Hrow1|]. done.
  - intros fp x Hraise.
    destruct (indexing_stages_raises _ _ _ _ _ _ _ w Hraise)
      as (w1 & Hrun & _ & _ & _ & Hrow1).
    destruct (Hrow1 _ Hrow) as (row1 & Hrow1' & Hst).
    unfold Repos.index_repository_task, try_except. rewrite Hrun.
    unfold Db.update_repo_status.
    destruct (Repos.status_write_error e ERROR) as [y|].
    + by exists w1, row1.
    + eexists _, _. split; [reflexivity|]. cbn [repositories].
      rewrite lookup_alter_eq, Hrow1'. cbn. done.
Qed.

Lemma index_repository_task_terminal_witness :
  exists w' row',
    Repos.index_repository_task failing_env "r" "https://example.org/repo.git"
      "main" None ready_world = (Ok tt, w') /\
    repositories w' !! "r"%string = Some row' /\
    status row' = ERROR /\
    error_message row'
    = Some (exn_message (RuntimeError "UNIQUE constraint failed: chunks.chunk_id")).
Proof.
  apply (proj2 (proj2 (proj2 (index_repository_task_terminal failing_env "r"
                  "https://example.org/repo.git" "main" None ready_world
                  sample_row eq_refl)))
           (FilesReplaced [[7%Z]] 1)).
  apply (raises_save_chunks _ _ _ _ _ [[7%Z]]); [|reflexivity].
  repeat split; try reflexivity.
  - by exists "/data/repos/r"%string.
  - by vm_compute.
Defined.

(** The claim of C8 fails on a run whose clone fails while the database
    refuses the write of the [ERROR] status: the exception of that write
    leaves the task, and the repository stays in [INDEXING]. *)
Lemma failed_error_write_propagates :
  exists w',
    Repos.index_repository_task locked_env "r" "https://example.org/repo.git"
      "main" None ready_world
    = (Raise (RuntimeError "database is locked"), w') /\
    status <$> repositories w' !! "r"%string = Some INDEXING.
Proof. eexists. split; [by vm_compute|]. by vm_compute. Qed.

(** C5, as the code has it.  There is no build-then-swap: what a failed run
    leaves depends on the stage that raises.  The files and chunks of the
    other repositories are untouched.  Of the repository's own data, a run
    that fails before the index file is opened for writing changes nothing;
    a write of the index file that fails after opening it leaves a damaged
    index file; once the index file is written it holds the new index,
    whatever fails later: a failed write of the mapping leaves the old
    mapping, or a damaged one; a failed chunk persistence leaves the new
    mapping with the old chunks, the persistence being one transaction; and
    a failed write of the [READY] status leaves the new index, the new
    mapping and the new chunks. *)
Theorem failed_run_effects (e : Repos.env) (repo_id url branch : string)
    (github_token : option string) (w : world) (fp : failure_point) (x : exn) :
  stage_raises e repo_id url branch github_token fp x ->
  let w' := (Repos.index_repository_task e repo_id url branch github_token w).2 in
  left_by fp repo_id (parsed_chunks e) w w' /\
  (forall other, other <> repo_id ->
     index_files w' !! other = index_files w !! other /\
     mapping_files w' !! other = mapping_files w !! other) /\
  rows_of_others repo_id (chunks_table w')
  = rows_of_others repo_id (chunks_table w).
Proof.
  intros Hraise. cbn zeta.
  destruct (indexing_stages_raises _ _ _ _ _ _ _ w Hraise)
    as (w1 & Hrun & Hleft & Hother & Hrows & _).
  unfold Repos.index_repository_task, try_except. rewrite Hrun.
  unfold Db.update_repo_status.
  destruct (Repos.status_write_error e ERROR) as [y|]; cbn [snd]; [done|].
  split; [|done]. by destruct fp.
Qed.

Lemma failed_run_effects_witness :
  let w' := (Repos.index_repository_task failing_env "r"
               "https://example.org/repo.git" "main" None ready_world).2 in
  left_by (FilesReplaced [[7%Z]] 1) "r" (parsed_chunks failing_env)
    ready_world w' /\
  (forall other, other <> "r"%string ->
     index_files w' !! other = index_files ready_world !! other /\
     mapping_files w' !! other = mapping_files ready_world !! other) /\
  rows_of_others "r" (chunks_table w')
  = rows_of_others "r" (chunks_table ready_world).
Proof.
  apply (failed_run_effects failing_env "r" "https://example.org/repo.git"
           "main" None ready_world (FilesReplaced [[7%Z]] 1)
           (RuntimeError "UNIQUE constraint failed: chunks.chunk_id")).
  apply (raises_save_chunks _ _ _ _ _ [[7%Z]]); [|reflexivity].
  repeat split; try reflexivity.
  - by exists "/data/repos/r"%string.
  - by vm_compute.
Defined.

(** The claim of C5 fails on a run whose chunk persistence fails after the
    index was built: the old rows are still in the [chunks] table, but the
    index file is the new one, and the search that returned the old chunk's
    id now returns the id of a chunk that was not saved. *)
Lemma failed_persistence_replaces_index :
  let w' := (Repos.index_repository_task failing_env "r"
               "https://example.org/repo.git" "main" None ready_world).2 in
  (Repos.indexing_stages failing_env "r" "https://example.org/repo.git" "main"
     None ready_world).1
  = Raise (RuntimeError "UNIQUE constraint failed: chunks.chunk_id") /\
  chunks_table w' = chunks_table ready_world /\
  index_files ready_world !! "r"%string
    = Some (Intact {| dimension := 1; xb := [[0%Z]; [1%Z]; [5%Z]] |}) /\
  index_files w' !! "r"%string
    = Some (Intact {| dimension := 1; xb := [[7%Z]] |}) /\
  Indexer.search_index ready_world "r" [0%Z] 1 = Ok ["c1"%string] /\
  Indexer.search_index w' "r" [0%Z] 1 = Ok ["n0"%string] /\
  Db.get_chunk_by_id w' "n0" = None.
Proof. cbn zeta. repeat split; by vm_compute. Qed.

(** ** The indexing task: further properties *)

(** X19.  The state after a run that completes.  The task returns; the
    mapping of the repository lists the ids of the parsed chunks, in order;
    its index holds, in the same order, the first of the collected
    embeddings, one per chunk; its rows of the chunks table are exactly the
    parsed chunks, the rows of other repositories being those of before; and
    its row of the repositories table is [READY] without error message,
    stamped with the time of the run, and counts the chunks and their
    distinct file paths. *)
Theorem indexing_run_success (e : Repos.env) (repo_id url branch : string)
    (github_token : option string) (w : world) (row : repo_row)
    (embs vs : list (list Z)) (dim : nat) :
  repositories w !! repo_id = Some row ->
  completed e repo_id url branch github_token embs vs dim ->
  let chunks := parsed_chunks e in
  exists w',
    Repos.index_repository_task e repo_id url branch github_token w = (Ok tt, w') /\
    mapping_files w' !! repo_id = Some (Intact (chunk_id <$> chunks)) /\
    index_files w' !! repo_id = Some (Intact {| dimension := dim; xb := vs |}) /\
    vs = take (length chunks) embs /\ length vs = length chunks /\
    rows_of repo_id (chunks_table w') = chunks /\
    rows_of_others repo_id (chunks_table w')
    = rows_of_others repo_id (chunks_table w) /\
    repositories w' !! repo_id
    = Some {| repo_url := repo_url row; status := READY; error_message := None;
              indexed_at := Some (Repos.now e);
              file_count :=
                size (list_to_set (file_path <$> chunks) : gset string);
              chunk_count := length chunks |}.
Proof.
  intros Hrow Hdone. cbn zeta.
  destruct (indexing_stages_completed _ _ _ _ _ _ _ _ w Hdone)
    as (w1 & Hrun & Hix & Hmap & Hrows & Hothers & Hrow1).
  exists w1. unfold Repos.index_repository_task, try_except. rewrite Hrun.
  split; [done|]. rewrite Hmap, Hix, !lookup_insert_eq.
  split; [done|]. split; [done|].
  destruct Hdone as [[[[(_ & Hvs & _) _] _] _] _].
  apply embeddings_of_attach_inv in Hvs as [Hlen ->].
  2:{ eapply Forall_impl; [apply parse_files_plain|]. cbn. tauto. }
  split; [done|]. split; [rewrite length_take; lia|]. auto.
Qed.

Lemma indexing_run_success_witness :
  exists w',
    Repos.index_repository_task sample_env "r" "https://example.org/repo.git"
      "main" None ready_world = (Ok tt, w') /\
    mapping_files w' !! "r"%string
    = Some (Intact (chunk_id <$> parsed_chunks sample_env)) /\
    index_files w' !! "r"%string
    = Some (Intact {| dimension := 1; xb := [[7%Z]] |}) /\
    [[7%Z]] = take (length (parsed_chunks sample_env)) [[7%Z]] /\
    length [[7%Z]] = length (parsed_chunks sample_env) /\
    rows_of "r" (chunks_table w') = parsed_chunks sample_env /\
    rows_of_others "r" (chunks_table w')
    = rows_of_others "r" (chunks_table ready_world) /\
    repositories w' !! "r"%string
    = Some {| repo_url := repo_url sample_row; status := READY;
              error_message := None;
              indexed_at := Some (Repos.now sample_env);
              file_count :=
                size (list_to_set (file_path <$> parsed_chunks sample_env)
                      : gset string);
              chunk_count := length (parsed_chunks sample_env) |}.
Proof.
  apply (indexing_run_success sample_env "r" "https://example.org/repo.git"
           "main" None ready_world sample_row [[7%Z]] [[7%Z]] 1).
  - reflexivity.
  - repeat split; try reflexivity.
    + by exists "/data/repos/r"%string.
    + by vm_compute.
Defined.

Lemma const_fmap_replicate {A B} (z : B) (l : list A) :
  (fun _ => z) <$> l = replicate (length l) z.
Proof. induction l as [|a l IH]; [done|]. cbn. by rewrite IH. Qed.

Lemma embed_loop_all_fail embed_batch :
  (forall n b, exists x, embed_batch n b = Raise x) ->
  forall fuel batch texts acc,
    length texts <= fuel ->
    Forall (fun v => v = replicate 1536 0%Z) acc ->
    Embedder.embed_loop embed_batch fuel batch texts acc
    = acc ++ replicate (length texts) (replicate 1536 0%Z).
Proof.
  intros Hdown. induction fuel as [|fuel IH]; intros batch texts acc Hfuel Hacc.
  - destruct texts; [cbn; by rewrite app_nil_r|cbn in Hfuel; lia].
  - destruct texts as [|t texts]; [cbn; by rewrite app_nil_r|].
    cbn [Embedder.embed_loop].
    destruct (Hdown batch (take Embedder.batch_size (t :: texts))) as [x ->].
    assert (Embedder.zero_embeddings acc (take Embedder.batch_size (t :: texts))
            = replicate (length (take Embedder.batch_size (t :: texts)))
                (replicate 1536 0%Z)) as ->.
    { unfold Embedder.zero_embeddings. rewrite const_fmap_replicate.
      destruct acc as [|v acc]; [done|].
      apply Forall_cons in Hacc as [-> _]. by rewrite length_replicate. }
    rewrite IH.
    + rewrite <- app_assoc, <- replicate_add. do 2 f_equal.
      rewrite length_take, length_drop. lia.
    + rewrite length_drop. cbn in *. unfold Embedder.batch_size. lia.
    + apply Forall_app. split; [done|]. by apply Forall_replicate.
Qed.

Lemma parse_files_with_model e model files drawn :
  Repos.parse_files (Embedder.with_model e model) files drawn
  = Repos.parse_files e files drawn.
Proof.
  revert drawn. induction files as [|f files IH]; intros drawn;
    cbn [Repos.parse_files]; [done|].
  destruct (strip (Repos.text f)) as [|a0 t0]; [by apply IH|].
  cbn [Embedder.with_model Repos.uuid4 Repos.sha256_hex]. by rewrite IH.
Qed.

(** X20.  An embedding outage does not fail a run.  When the status writes,
    the clone, the file writes and the chunk persistence succeed, the parse
    yields chunks and every batch of the embedding model fails, the run
    completes and the repository ends [READY]: its index holds one vector of
    1536 zeros per chunk. *)
Theorem embedding_outage_still_ready (e : Repos.env)
    (embed_batch : nat -> list str -> result (list (list Z)))
    (repo_id url branch : string) (github_token : option string)
    (w : world) (row : repo_row) (path : string) :
  repositories w !! repo_id = Some row ->
  Repos.status_write_error e INDEXING = None ->
  Repos.clone_repository e repo_id url branch github_token = Ok path ->
  parsed_chunks e <> [] ->
  (forall n b, exists x, embed_batch n b = Raise x) ->
  Repos.write_index_error e = None ->
  Repos.write_mapping_error e = None ->
  Repos.save_chunks_error e = None ->
  Repos.status_write_error e READY = None ->
  exists w' row',
    Repos.index_repository_task (Embedder.with_model e (Ok embed_batch))
      repo_id url branch github_token w = (Ok tt, w') /\
    repositories w' !! repo_id = Some row' /\
    status row' = READY /\ error_message row' = None /\
    index_files w' !! repo_id
    = Some (Intact {| dimension := 1536;
                      xb := replicate (length (parsed_chunks e))
                              (replicate 1536 0%Z) |}).
Proof.
  intros Hrow Hmark Hclone Hne Hdown Hwi Hwm Hsc Hready.
  set (e' := Embedder.with_model e (Ok embed_batch)).
  set (zeros := replicate (length (parsed_chunks e)) (replicate 1536 0%Z)).
  assert (Hparsed : parsed_chunks e' = parsed_chunks e)
    by apply parse_files_with_model.
  assert (Hdone : completed e' repo_id url branch github_token zeros zeros 1536).
  { repeat split; try done.
    - by exists path.
    - by rewrite Hparsed.
    - rewrite Hparsed. cbn [e' Embedder.with_model Repos.embed_all Embedder.embed_all].
      rewrite (embed_loop_all_fail embed_batch Hdown) by (done || constructor).
      by rewrite app_nil_l, length_fmap.
    - rewrite Hparsed, embeddings_of_attach by (unfold zeros; by rewrite length_replicate).
      unfold zeros. by rewrite take_replicate, Nat.min_id.
    - apply matrix_dimension_intro.
      + unfold zeros, parsed_chunks in *.
        by destruct (Repos.parse_files e (Repos.repo_files e) 0).
      + apply Forall_replicate. by rewrite length_replicate. }
  destruct (indexing_stages_completed _ _ _ _ _ _ _ _ w Hdone)
    as (w1 & Hrun & Hix & _ & _ & _ & Hrow1).
  exists w1. eexists. unfold Repos.index_repository_task, try_except.
  rewrite Hrun. split; [done|]. split; [by apply Hrow1|].
  split; [done|]. split; [done|]. by rewrite Hix, lookup_insert_eq.
Qed.

Lemma embedding_outage_still_ready_witness :
  exists w' row',
    Repos.index_repository_task (Embedder.with_model sample_env (Ok down_model))
      "r" "https://example.org/repo.git" "main" None ready_world = (Ok tt, w') /\
    repositories w' !! "r"%string = Some row' /\
    status row' = READY /\ error_message row' = None /\
    index_files w' !! "r"%string
    = Some (Intact {| dimension := 1536;
                      xb := replicate (length (parsed_chunks sample_env))
                              (replicate 1536 0%Z) |}).
Proof.
  apply (embedding_outage_still_ready sample_env down_model "r"
           "https://example.org/repo.git" "main" None ready_world sample_row
           "/data/repos/r").
  - reflexivity.
  - reflexivity.
  - reflexivity.
  - vm_compute. discriminate.
  - intros n b. by eexists.
  - reflexivity.
  - reflexivity.
  - reflexivity.
  - reflexivity.
Defined.
